(** * locate-resources: resolution, planning and verified transfer

    A shallow embedding of [locate-resources.py] and the properties of its
    resolution-and-verified-transfer core: [parse_rules], [get_libraries],
    [fetch_json], [get_assets], [compute_sha1], [download_file_async],
    [download_file_async_with_retry], the two filters of the tasks that
    need a transfer, and [headless] from the loaded manifests on.

    Conventions of the embedding.
    - JSON objects that the program uses as structs are records.  A key the
      program indexes unconditionally ([rule['action']], [obj['hash']]) is a
      plain field; a key it tests with [in] or reads with [.get] is an
      [option] field ([None] when the key is missing).
    - A JSON object the program iterates ([classifiers], [objects]) is an
      association list in document order.
    - Strings are byte strings; Python slices by character, which is the
      same on the ASCII names and digests the program slices.
    - Python truthiness of an optional string ([if sha:], [if rel:]) is
      [truthy]: [None] and the empty string are both false.
    - The local store maps a path to the bytes of the regular file there;
      directories are implicit, so [os.makedirs(..., exist_ok=True)] has no
      visible effect, and reading or writing a file fails only when the
      file to read is not there.  [os.path] is [posixpath].
    - [hashlib.sha1] is SHA-1 itself; [json] and the remote side are
      parameters ([Environment]): the network answers the n-th GET of a run
      through an oracle [server n url], and every GET is logged in the
      world, as is every sleep.
    - Code between two [await]s runs atomically; an [await] that can suspend
      is a [Block] node, where the event loop may run other transfers.  A
      run of [asyncio.gather] is modelled for every order in which the
      event loop can take its turns ([schedule]).
    - The discovery of the installed versions and the loading of their
      manifests (the first part of [headless]) is left out: [headless]
      takes the loaded manifests with their jar paths.  The terminal UI is
      left out but for the filter of [verify_and_download]. *)

From Stdlib Require Import ZArith NArith Ascii String List Lia.
From stdpp Require Import base decidable option list gmap strings.

Local Open Scope Z_scope.

Set Warnings "-clear-no-such-hyp".

(** ** Strings the way Python slices and searches them *)

Module Str.

Fixpoint take (n : nat) (s : string) : string :=
  match n, s with
  | S n', String c s' => String c (take n' s')
  | _, _ => ""
  end.

Fixpoint drop (n : nat) (s : string) : string :=
  match n, s with
  | S n', String _ s' => drop n' s'
  | _, _ => s
  end.

(** [s.startswith(p)] *)
Fixpoint startswith (p s : string) : bool :=
  match p, s with
  | "", _ => true
  | String a p', String b s' => if decide (a = b) then startswith p' s' else false
  | String _ _, "" => false
  end.

(** [s.endswith(p)] for a one-character [p] *)
Fixpoint endswith_char (c : ascii) (s : string) : bool :=
  match s with
  | "" => false
  | String a "" => bool_decide (a = c)
  | String _ s' => endswith_char c s'
  end.

(** [s.split(sep)] for a one-character separator: never returns []. *)
Fixpoint split_go (sep : ascii) (cur : string) (s : string) : list string :=
  match s with
  | "" => [String.rev cur]
  | String a s' =>
      if decide (a = sep) then String.rev cur :: split_go sep "" s'
      else split_go sep (String a cur) s'
  end.
Definition split (sep : ascii) (s : string) : list string := split_go sep "" s.

(** [s.replace(old, new)] for a non-empty [old]: non-overlapping
    occurrences, leftmost first. *)
Fixpoint replace_go (fuel : nat) (old new s : string) : string :=
  match fuel with
  | O => s
  | S fuel' =>
      match s with
      | "" => ""
      | String a s' =>
          if startswith old s
          then new +:+ replace_go fuel' old new (drop (String.length old) s)
          else String a (replace_go fuel' old new s')
      end
  end.
Definition replace (old new s : string) : string :=
  replace_go (String.length s) old new s.

(** What the decision procedure for classifier names needs. *)
Lemma app_cons c s t : String c s +:+ t = String c (s +:+ t).
Proof. reflexivity. Qed.

Lemma startswith_app p r : startswith p (p +:+ r) = true.
Proof.
  induction p as [|a p IH]; [done|].
  rewrite app_cons; simpl. by rewrite decide_True.
Qed.

Lemma startswith_inv p s : startswith p s = true → s = p +:+ drop (String.length p) s.
Proof.
  revert s; induction p as [|a p IH]; intros [|b s]; simpl; try done.
  case_decide; [|done]. intros Hs. subst b.
  rewrite app_cons. f_equal. by apply IH.
Qed.

Lemma drop_app_length p r : drop (String.length p) (p +:+ r) = r.
Proof. induction p as [|a p IH]; [done|]. rewrite app_cons; simpl. apply IH. Qed.

End Str.

(** ** hashlib.sha1 *)

Module Sha1.

Local Open Scope N_scope.

Definition w32 (x : N) : N := N.land x 0xffffffff.
Definition rotl (n x : N) : N := w32 (N.lor (N.shiftl x n) (N.shiftr x (32 - n))).
Definition add32 (x y : N) : N := w32 (x + y).

Definition bytes_of (s : string) : list N := N_of_ascii <$> list_ascii_of_string s.

(** the message followed by 0x80, zero bytes up to 56 mod 64, and the bit
    length as a 64-bit big-endian number *)
Definition be_bytes (count : nat) (x : N) : list N :=
  (λ i : nat, N.land (N.shiftr x (8 * N.of_nat (count - 1 - i))) 0xff) <$> seq 0 count.

Definition pad (msg : list N) : list N :=
  let len := N.of_nat (length msg) in
  let zeros := N.to_nat ((119 - len mod 64) mod 64) in
  msg ++ [0x80] ++ replicate zeros 0 ++ be_bytes 8 (8 * len).

Fixpoint words_of (fuel : nat) (bs : list N) : list N :=
  match fuel, bs with
  | S fuel', b0 :: b1 :: b2 :: b3 :: rest =>
      (N.shiftl b0 24 + N.shiftl b1 16 + N.shiftl b2 8 + b3) :: words_of fuel' rest
  | _, _ => []
  end.

Fixpoint blocks_of (fuel : nat) (ws : list N) : list (list N) :=
  match fuel, ws with
  | S fuel', _ :: _ => List.firstn 16 ws :: blocks_of fuel' (List.skipn 16 ws)
  | _, _ => []
  end.

(** message schedule, most recent word first *)
Fixpoint extend (count : nat) (rev_ws : list N) : list N :=
  match count with
  | O => rev_ws
  | S count' =>
      let w := rotl 1 (N.lxor (N.lxor (nth 2 rev_ws 0) (nth 7 rev_ws 0))
                              (N.lxor (nth 13 rev_ws 0) (nth 15 rev_ws 0))) in
      extend count' (w :: rev_ws)
  end.

Definition round_fk (t : nat) (b c d : N) : N * N :=
  if (t <? 20)%nat then (N.lor (N.land b c) (N.land (N.lxor b 0xffffffff) d), 0x5a827999)
  else if (t <? 40)%nat then (N.lxor (N.lxor b c) d, 0x6ed9eba1)
  else if (t <? 60)%nat then
    (N.lor (N.lor (N.land b c) (N.land b d)) (N.land c d), 0x8f1bbcdc)
  else (N.lxor (N.lxor b c) d, 0xca62c1d6).

Definition state : Type := N * N * N * N * N.

Fixpoint rounds (t : nat) (ws : list N) (st : state) : state :=
  match ws with
  | [] => st
  | w :: ws' =>
      let '(a, b, c, d, e) := st in
      let '(f, k) := round_fk t b c d in
      let temp := add32 (add32 (add32 (add32 (rotl 5 a) f) e) k) w in
      rounds (S t) ws' (temp, a, rotl 30 b, c, d)
  end.

Definition compress (st : state) (block : list N) : state :=
  let '(h0, h1, h2, h3, h4) := st in
  let '(a, b, c, d, e) := rounds 0 (List.rev (extend 64 (List.rev block))) st in
  (add32 h0 a, add32 h1 b, add32 h2 c, add32 h3 d, add32 h4 e).

Definition initial : state :=
  (0x67452301, 0xefcdab89, 0x98badcfe, 0x10325476, 0xc3d2e1f0).

Definition hex_digit (x : N) : ascii :=
  nth (N.to_nat x) (list_ascii_of_string "0123456789abcdef") "0"%char.

Definition hex_word (x : N) : string :=
  string_of_list_ascii
    ((λ i : nat, hex_digit (N.land (N.shiftr x (4 * N.of_nat (7 - i))) 0xf)) <$> seq 0 8).

Definition hexdigest_of (data : string) : string :=
  let bs := pad (bytes_of data) in
  let ws := words_of (length bs) bs in
  let '(h0, h1, h2, h3, h4) := foldl compress initial (blocks_of (length ws) ws) in
  hex_word h0 +:+ hex_word h1 +:+ hex_word h2 +:+ hex_word h3 +:+ hex_word h4.

(** The streaming interface: a hash object remembers what it was fed. *)
Record hasher := { fed : string }.
Definition new : hasher := {| fed := "" |}.
Definition update (h : hasher) (chunk : string) : hasher := {| fed := fed h +:+ chunk |}.
Definition hexdigest (h : hasher) : string := hexdigest_of (fed h).

End Sha1.

(** ** posixpath *)

Module Path.

(** One argument of [os.path.join] after the first. *)
Definition join_step (path b : string) : string :=
  if Str.startswith "/" b then b
  else if bool_decide (path = "") || Str.endswith_char "/" path then path +:+ b
  else path +:+ "/" +:+ b.

Definition join (a : string) (p : list string) : string := foldl join_step a p.

(** the part of a reversed path from its first slash on *)
Fixpoint from_slash (s : string) : string :=
  match s with
  | "" => ""
  | String c s' => if decide (c = "/"%char) then s else from_slash s'
  end.

Fixpoint lstrip_slashes (s : string) : string :=
  match s with
  | String c s' => if decide (c = "/"%char) then lstrip_slashes s' else s
  | "" => ""
  end.

Definition dirname (p : string) : string :=
  let head := from_slash (String.rev p) in
  match lstrip_slashes head with
  | "" => String.rev head
  | stripped => String.rev stripped
  end.

End Path.

(** ** Manifest documents *)

(** [rule['os']]: the platform name and, when the key is there, a version
    pattern. *)
Record os_pred := { os_name : string; os_version : option string }.

(** One entry of a library's [rules]. *)
Record rule := { action : string; os : option os_pred }.

(** An [artifact] or one classifier's info; every key is read with [.get]. *)
Record artifact_info := {
  info_url : option string;
  info_path : option string;
  info_sha1 : option string
}.

(** [lib['downloads']] *)
Record lib_downloads := {
  artifact : option artifact_info;
  classifiers : option (list (string * artifact_info))
}.

(** One entry of [libraries]. *)
Record library := {
  lib_rules : option (list rule);
  downloads : option lib_downloads
}.

Global Instance os_pred_eq_dec : EqDecision os_pred.
Proof. solve_decision. Defined.
Global Instance rule_eq_dec : EqDecision rule.
Proof. solve_decision. Defined.
Global Instance artifact_info_eq_dec : EqDecision artifact_info.
Proof. solve_decision. Defined.

(** Python truthiness of a value that is a string or [None]. *)
Definition truthy (v : option string) : bool :=
  match v with
  | Some (String _ _) => true
  | _ => false
  end.

(** ** The rest of the documents *)

Record client_info := { client_url : string; client_sha1 : option string }.

(** [version_json['downloads']] *)
Record manifest_downloads := { client : option client_info }.

(** [version_json['assetIndex']] *)
Record asset_index_ref := { index_url : string; index_id : string }.

Record manifest := {
  manifest_downloads_of : option manifest_downloads;
  libraries : option (list library);
  assetIndex : option asset_index_ref
}.

(** One value of an asset index's [objects]. *)
Record asset_object := { hash : string }.

Record asset_index := { objects : option (list (string * asset_object)) }.

(** What [get_assets] returns for one object. *)
Record asset := { asset_url : string; asset_path : string; asset_sha1 : string }.

(** A download task, the tuple [(url, path, sha)]. *)
Record task := { task_url : option string; task_path : string; task_sha : option string }.

Global Instance task_eq_dec : EqDecision task.
Proof. solve_decision. Defined.
Global Instance asset_eq_dec : EqDecision asset.
Proof. solve_decision. Defined.

(** ** parse_rules *)

Definition ALL_OS : list string := ["osx"; "linux"; "windows"].

(** The body of the [for rule in rules] loop. *)
Definition parse_rules_step (allowed_os : gset string) (rule : rule) : gset string :=
  let action := action rule in
  let change : gset string :=
    match os rule with
    | Some rule_os =>
        if negb (bool_decide (action = "disallow") && bool_decide (is_Some (os_version rule_os)))
        then {[ os_name rule_os ]}
        else ∅
    | None => list_to_set ALL_OS
    end in
  if bool_decide (action = "allow") then allowed_os ∪ change else allowed_os ∖ change.

Definition parse_rules (rules : list rule) : gset string :=
  match rules with
  | [] => list_to_set ALL_OS
  | _ => foldl parse_rules_step ∅ rules
  end.

(** ** get_libraries *)

(** The body of the loop over [classifiers.items()]. *)
Definition classifier_step (allowed_os : gset string)
    (libraries : list artifact_info) (item : string * artifact_info) : list artifact_info :=
  let '(classifier, info) := item in
  if Str.startswith "natives-" classifier then
    let os_name := Str.drop 8 classifier in
    if decide (os_name ∈ allowed_os) then libraries ++ [info] else libraries
  else libraries.

(** The body of the [for lib in libs] loop. *)
Definition library_step (libraries : list artifact_info) (lib : library) : list artifact_info :=
  let allowed_os := parse_rules (default [] (lib_rules lib)) in
  match downloads lib with
  | Some d =>
      let libraries :=
        match artifact d with
        | Some a => libraries ++ [a]
        | None => libraries
        end in
      match classifiers d with
      | Some cs => foldl (classifier_step allowed_os) libraries cs
      | None => libraries
      end
  | None => libraries
  end.

Definition get_libraries (libs : list library) : list artifact_info :=
  foldl library_step [] libs.

(** ** The world: local store, network, clock, semaphore *)

Inductive response :=
| NoResponse (reason : string)        (* connection error or timeout *)
| Response (status : Z) (body : string).

Inductive exn :=
| ConnectionError (reason : string)
| HTTPError (status : Z)
| JSONDecodeError
| FileNotFoundError (path : string)
| ValueError (msg : string)
| TypeError (msg : string)
| AttributeError (msg : string).

Global Instance exn_eq_dec : EqDecision exn.
Proof. solve_decision. Defined.

Record world := {
  fs : gmap string string;     (* path -> content of the regular file there *)
  requests : list string;      (* the GETs issued so far, oldest first *)
  slept : list Z;              (* the sleeps so far, in seconds *)
  permits : nat                (* free permits of the semaphore *)
}.

Definition set_fs (f : gmap string string → gmap string string) (w : world) : world :=
  {| fs := f (fs w); requests := requests w; slept := slept w; permits := permits w |}.
Definition set_requests (f : list string → list string) (w : world) : world :=
  {| fs := fs w; requests := f (requests w); slept := slept w; permits := permits w |}.
Definition set_slept (f : list Z → list Z) (w : world) : world :=
  {| fs := fs w; requests := requests w; slept := f (slept w); permits := permits w |}.
Definition set_permits (f : nat → nat) (w : world) : world :=
  {| fs := fs w; requests := requests w; slept := slept w; permits := f (permits w) |}.

(** What the program cannot see from inside: how the remote side answers the
    n-th GET of the run, and how [json] parses a text as an asset index
    ([None]: not JSON). *)
Class Environment := {
  server : nat → string → response;
  json_loads : string → option asset_index
}.

(** The primitive effects. *)
Inductive op : Type → Type :=
| PathExists (path : string) : op bool             (* os.path.exists *)
| ReadFile (path : string) : op (option string)    (* open(path).read() *)
| WriteFile (path data : string) : op unit         (* open(path, 'w').write(data) *)
| MakeDirs (dir : string) : op unit                (* os.makedirs(dir, exist_ok=True) *)
| Get (url : string) : op response                 (* one HTTP GET *)
| Sleep (seconds : Z) : op unit
| Acquire : op unit
| Release : op unit.

Definition perform `{Environment} {X} (o : op X) (w : world) : X * world :=
  match o with
  | PathExists path => (bool_decide (is_Some (fs w !! path)), w)
  | ReadFile path => (fs w !! path, w)
  | WriteFile path data => (tt, set_fs <[path := data]> w)
  | MakeDirs _ => (tt, w)
  | Get url => (server (length (requests w)) url, set_requests (λ l, l ++ [url]) w)
  | Sleep seconds => (tt, set_slept (λ l, l ++ [seconds]) w)
  | Acquire => (tt, set_permits Nat.pred w)
  | Release => (tt, set_permits S w)
  end.

(** ** Programs *)

(** A program returns, raises, performs an effect and goes on, or suspends
    until the event loop resumes it, which it does only when [ready] holds. *)
Inductive prog (A : Type) : Type :=
| Ret (a : A)
| Raise (e : exn)
| Act {X : Type} (o : op X) (k : X → prog A)
| Block (ready : world → bool) (k : prog A).

Arguments Ret {A} a.
Arguments Raise {A} e.
Arguments Act {A X} o k.
Arguments Block {A} ready k.

Fixpoint bind {A B} (p : prog A) (f : A → prog B) : prog B :=
  match p with
  | Ret a => f a
  | Raise e => Raise e
  | Act o k => Act o (λ x, bind (k x) f)
  | Block ready k => Block ready (bind k f)
  end.

Declare Scope prog_scope.
Delimit Scope prog_scope with prog.
Bind Scope prog_scope with prog.

Notation "x ← y ; z" := (bind y (λ x, z))
  (at level 20, y at level 100, z at level 200, only parsing) : prog_scope.
Notation "x ;; z" := (bind x (λ _, z))
  (at level 100, z at level 200, only parsing, right associativity) : prog_scope.

Local Open Scope prog_scope.

(** [try: p except Exception as e: handler e] *)
Fixpoint try_catch {A} (p : prog A) (handler : exn → prog A) : prog A :=
  match p with
  | Ret a => Ret a
  | Raise e => handler e
  | Act o k => Act o (λ x, try_catch (k x) handler)
  | Block ready k => Block ready (try_catch k handler)
  end.

Definition act {X} (o : op X) : prog X := Act o Ret.

(** [await] of something that is not ready yet *)
Definition suspend : prog unit := Block (λ _, true) (Ret tt).

(** [for x in l: s = body s x] *)
Fixpoint for_each {S X} (body : S → X → prog S) (s : S) (l : list X) : prog S :=
  match l with
  | [] => Ret s
  | x :: l' => s' ← body s x; for_each body s' l'
  end.

(** Running a program alone, to its end. *)
Fixpoint run `{Environment} {A} (p : prog A) (w : world) : (exn + A) * world :=
  match p with
  | Ret a => (inr a, w)
  | Raise e => (inl e, w)
  | Act o k => let '(x, w') := perform o w in run (k x) w'
  | Block _ k => run k w
  end.

(** Running a program up to its next suspension. *)
Fixpoint advance `{Environment} {A} (p : prog A) (w : world) : prog A * world :=
  match p with
  | Act o k => let '(x, w') := perform o w in advance (k x) w'
  | _ => (p, w)
  end.

(** ** fetch_json *)

Section program.
Context `{Environment}.

(** [json.load(f)] / [response.json()] *)
Definition parse_json (text : string) : prog asset_index :=
  match json_loads text with
  | Some document => Ret document
  | None => Raise JSONDecodeError
  end.

(** [requests.get(url, timeout=30)] *)
Definition requests_get (url : string) : prog (Z * string) :=
  r ← act (Get url);
  match r with
  | NoResponse reason => Raise (ConnectionError reason)
  | Response status body => Ret (status, body)
  end.

(** [response.raise_for_status()] of requests: 4xx and 5xx raise. *)
Definition requests_raise_for_status (status : Z) : prog unit :=
  if bool_decide (400 ≤ status < 600) then Raise (HTTPError status) else Ret tt.

(** The body of the [try] in [fetch_json]. *)
Definition fetch_json_attempt (url filename : string) : prog (option asset_index) :=
  response ← requests_get url;
  let '(status, text) := response in
  requests_raise_for_status status;;
  let dirname := Path.dirname filename in
  (if bool_decide (dirname = "") then Ret tt else act (MakeDirs dirname));;
  act (WriteFile filename text);;
  document ← parse_json text;
  Ret (Some document).

(** [for attempt in range(3)]: the list holds the values of [attempt] still
    to come. Leaving the loop without a [return] returns [None]. *)
Fixpoint fetch_json_loop (attempts : list Z) (url filename : string)
    : prog (option asset_index) :=
  match attempts with
  | [] => Ret None
  | attempt :: attempts' =>
      try_catch (fetch_json_attempt url filename)
        (λ e, if bool_decide (attempt < 2)
              then act (Sleep (2 ^ attempt));; fetch_json_loop attempts' url filename
              else Raise e)
  end.

Definition fetch_json (url filename : string) : prog (option asset_index) :=
  ex ← act (PathExists filename);
  if ex then
    data ← act (ReadFile filename);
    match data with
    | Some text => document ← parse_json text; Ret (Some document)
    | None => Raise (FileNotFoundError filename)
    end
  else fetch_json_loop [0; 1; 2] url filename.

(** ** get_assets *)

Definition ASSET_DOWNLOAD (shard full : string) : string :=
  "https://resources.download.minecraft.net/" +:+ shard +:+ "/" +:+ full.

(** The body of the loop over [index.get('objects', {}).values()]. *)
Definition get_assets_step (cache_dir : string) (assets : list asset) (obj : asset_object)
    : list asset :=
  let hash := hash obj in
  let url := ASSET_DOWNLOAD (Str.take 2 hash) hash in
  let local_path := Path.join cache_dir ["assets"; "objects"; Str.take 2 hash; hash] in
  assets ++ [ {| asset_url := url; asset_path := local_path; asset_sha1 := hash |} ].

Definition index_file (cache_dir asset_id : string) : string :=
  Path.join cache_dir ["assets"; asset_id +:+ ".json"].

Definition get_assets (asset_index_url asset_id cache_dir : string) : prog (list asset) :=
  index ← fetch_json asset_index_url (index_file cache_dir asset_id);
  match index with
  | None => Ret []
  | Some index => Ret (foldl (get_assets_step cache_dir) [] (default [] (objects index)).*2)
  end.

(** ** compute_sha1 *)

Definition CHUNK : nat := 64 * 128.

(** [while chunk := f.read(8192): sha1.update(chunk)]; [rest] is what the
    file still holds after the reads so far. *)
Fixpoint read_chunks (fuel : nat) (sha1 : Sha1.hasher) (rest : string) : Sha1.hasher :=
  match fuel with
  | O => sha1
  | S fuel' =>
      match Str.take CHUNK rest with
      | "" => sha1
      | chunk => read_chunks fuel' (Sha1.update sha1 chunk) (Str.drop CHUNK rest)
      end
  end.

Definition file_digest (content : string) : string :=
  Sha1.hexdigest (read_chunks (S (String.length content)) Sha1.new content).

Definition compute_sha1 (file_path : string) : prog string :=
  data ← act (ReadFile file_path);
  match data with
  | Some content => Ret (file_digest content)
  | None => Raise (FileNotFoundError file_path)
  end.

(** ** The filter of the tasks that need a transfer *)

(** The loop body in [headless]; every kept task carries its reason. *)
Definition to_download_step (to_download : list (task * string)) (t : task)
    : prog (list (task * string)) :=
  ex ← act (PathExists (task_path t));
  if negb ex then Ret (to_download ++ [(t, "missing")])
  else if truthy (task_sha t) then
    actual ← compute_sha1 (task_path t);
    if bool_decide (Some actual ≠ task_sha t)
    then Ret (to_download ++ [(t, "corrupt")])
    else Ret to_download
  else Ret to_download.

Definition headless_to_download (tasks : list task) : prog (list (task * string)) :=
  for_each to_download_step [] tasks.



(** ** download_file_async *)

(** How Python formats an optional string in an f-string. *)
Definition fmt (v : option string) : string := default "None" v.

(** [session.get(url)] of aiohttp; a url that is [None] is refused before
    anything is sent. *)
Definition session_get (url : option string) : prog (Z * string) :=
  match url with
  | None => Raise (TypeError "Constructor parameter should be str")
  | Some url =>
      r ← act (Get url);
      suspend;;
      match r with
      | NoResponse reason => Raise (ConnectionError reason)
      | Response status body => Ret (status, body)
      end
  end.

(** [response.raise_for_status()] of aiohttp: 400 and above raise. *)
Definition aiohttp_raise_for_status (status : Z) : prog unit :=
  if bool_decide (400 ≤ status) then Raise (HTTPError status) else Ret tt.

(** From [dirname = os.path.dirname(path)] to the end of
    [download_file_async]. *)
Definition download_file_async_transfer (url : option string) (path : string)
    (expected_sha : option string) : prog bool :=
  let dirname := Path.dirname path in
  (if bool_decide (dirname = "") then Ret tt else act (MakeDirs dirname));;
  response ← session_get url;
  let '(status, content) := response in
  aiohttp_raise_for_status status;;
  suspend;;
  act (WriteFile path content);;
  if truthy expected_sha then
    actual_sha ← compute_sha1 path;
    if bool_decide (Some actual_sha ≠ expected_sha)
    then Raise (ValueError ("SHA1 mismatch for " +:+ path +:+ ": expected "
                            +:+ fmt expected_sha +:+ ", got " +:+ actual_sha))
    else Ret true
  else Ret true.

Definition download_file_async (url : option string) (path : string)
    (expected_sha : option string) : prog bool :=
  ex ← act (PathExists path);
  if ex then
    if truthy expected_sha then
      actual ← compute_sha1 path;
      if bool_decide (Some actual = expected_sha) then Ret false
      else download_file_async_transfer url path expected_sha
    else Ret false
  else download_file_async_transfer url path expected_sha.

(** The body of the [try] in [download_file_async_with_retry]. *)
Definition download_attempt (url : option string) (path : string)
    (expected_sha : option string) : prog (option bool) :=
  downloaded ← download_file_async url path expected_sha;
  if negb downloaded then Ret (Some false)
  else if truthy expected_sha then
    actual ← compute_sha1 path;
    if bool_decide (Some actual ≠ expected_sha)
    then Raise (ValueError ("SHA1 mismatch for " +:+ path +:+ " after download: expected "
                            +:+ fmt expected_sha +:+ ", got " +:+ actual))
    else Ret (Some true)
  else Ret (Some true).

(** [while attempt < retries]; [remaining] is [retries - attempt], the
    number of iterations the loop can still make.  A loop left because its
    condition is false returns [None]. *)
Fixpoint download_retry_loop (remaining : nat) (attempt : Z)
    (url : option string) (path : string) (expected_sha : option string)
    (retries backoff : Z) : prog (option bool) :=
  match remaining with
  | O => Ret None
  | S remaining' =>
      try_catch (download_attempt url path expected_sha)
        (λ e, let attempt := attempt + 1 in
              if bool_decide (attempt < retries)
              then act (Sleep (backoff ^ attempt));; suspend;;
                   download_retry_loop remaining' attempt url path expected_sha retries backoff
              else Raise e)
  end.

Definition download_file_async_with_retry (url : option string) (path : string)
    (expected_sha : option string) (retries backoff : Z) : prog (option bool) :=
  download_retry_loop (Z.to_nat retries) 0 url path expected_sha retries backoff.

(** ** headless: collecting the tasks *)

(** The body of [for lib in libs]. *)
Definition library_task_step (minecraft_dir : string) (tasks : list task)
    (lib : artifact_info) : prog (list task) :=
  let url := info_url lib in
  let rel := info_path lib in
  local_path ←
    (if truthy rel then
       Ret (Path.join minecraft_dir ("libraries" :: Str.split "/" (default "" rel)))
     else
       match url with
       | Some url =>
           let local_path := Str.replace "https://libraries.minecraft.net/" "" url in
           Ret (Path.join minecraft_dir ["libraries"; local_path])
       | None => Raise (AttributeError "'NoneType' object has no attribute 'replace'")
       end);
  Ret (tasks ++ [ {| task_url := url; task_path := local_path; task_sha := info_sha1 lib |} ]).

Definition asset_task (a : asset) : task :=
  {| task_url := Some (asset_url a); task_path := asset_path a;
     task_sha := Some (asset_sha1 a) |}.

(** The body of [for version, json_file, jar_file in installed_versions],
    from the loaded [version_json] on. *)
Definition version_step (minecraft_dir : string) (tasks : list task)
    (version : manifest * string) : prog (list task) :=
  let '(version_json, jar_file) := version in
  let tasks :=
    match mbind client (manifest_downloads_of version_json) with
    | Some c => tasks ++ [ {| task_url := Some (client_url c); task_path := jar_file;
                              task_sha := client_sha1 c |} ]
    | None => tasks
    end in
  let libs := get_libraries (default [] (libraries version_json)) in
  tasks ← for_each (library_task_step minecraft_dir) tasks libs;
  match assetIndex version_json with
  | Some asset_info =>
      assets ← get_assets (index_url asset_info) (index_id asset_info) minecraft_dir;
      Ret (foldl (λ tasks a, tasks ++ [asset_task a]) tasks assets)
  | None => Ret tasks
  end.

Definition headless_tasks (minecraft_dir : string) (versions : list (manifest * string))
    : prog (list task) :=
  for_each (version_step minecraft_dir) [] versions.

(** ** headless: the transfers *)

(** The line a transfer prints when it ends. *)
Inductive outcome :=
| Downloaded          (* "Downloaded: path" *)
| Ok                  (* "OK: path" *)
| Failed (e : exn).   (* "Error downloading url -> path: e" *)

(** [dl(url, path, sha)] under [async with semaphore]. *)
Definition dl (t : task) : prog outcome :=
  Block (λ w, bool_decide (0 < permits w)%nat)
    (act Acquire;;
     r ← try_catch
           (ok ← download_file_async_with_retry (task_url t) (task_path t) (task_sha t) 3 2;
            Ret (if ok is Some true then Downloaded else Ok))
           (λ e, Ret (Failed e));
     act Release;;
     Ret r).

(** One turn of the event loop: the transfer [i] runs to its next
    suspension, if it is suspended and ready. *)
Definition resume (i : nat) (st : list (prog outcome) * world) : list (prog outcome) * world :=
  let '(pool, w) := st in
  match pool !! i with
  | Some (Block ready k) =>
      if ready w then let '(p, w') := advance k w in (<[i := p]> pool, w') else st
  | _ => st
  end.

(** [asyncio.gather] over the pool, the event loop taking its turns in the
    order [schedule]. *)
Definition gather (schedule : list nat) (st : list (prog outcome) * world)
    : list (prog outcome) * world :=
  foldl (λ st i, resume i st) st schedule.

Definition finished (p : prog outcome) : option outcome :=
  match p with
  | Ret o => Some o
  | _ => None
  end.

(** The outcome of a run of [headless]. *)
Inductive report :=
| Crashed (e : exn)                               (* an exception left [headless] *)
| UpToDate                                        (* "All files are up to date and valid" *)
| DryRun (to_download : list (task * string))
| Transferred (to_download : list (task * string)) (pool : list (prog outcome)).

Definition headless (minecraft_dir : string) (dry_run : bool)
    (versions : list (manifest * string)) (schedule : list nat) (w : world)
    : report * world :=
  match run (headless_tasks minecraft_dir versions) w with
  | (inl e, w) => (Crashed e, w)
  | (inr tasks, w) =>
      match run (headless_to_download tasks) w with
      | (inl e, w) => (Crashed e, w)
      | (inr [], w) => (UpToDate, w)
      | (inr to_download, w) =>
          if dry_run then (DryRun to_download, w)
          else
            let w := set_permits (λ _, 8%nat) w in
            let '(pool, w) := gather schedule (dl <$> to_download.*1, w) in
            (Transferred to_download pool, w)
      end
  end.

End program.

(** ** The rule evaluator as the specification words it *)

Module RuleEvaluator.

Inductive Action := Allow | Disallow.

(** A platform predicate names a platform and may pin a version. *)
Record Predicate := { platform : string; pins_version : bool }.

Record PlatformRule := { rule_action : Action; predicate : option Predicate }.

Definition full : gset string := {[ "osx"; "linux"; "windows" ]}.

Definition implied (r : PlatformRule) : gset string :=
  match predicate r with
  | None => full
  | Some p =>
      match rule_action r with
      | Disallow => if pins_version p then ∅ else {[ platform p ]}
      | Allow => {[ platform p ]}
      end
  end.

Definition apply (acc : gset string) (r : PlatformRule) : gset string :=
  match rule_action r with
  | Allow => acc ∪ implied r
  | Disallow => acc ∖ implied r
  end.

Definition evaluate (rules : list PlatformRule) : gset string :=
  match rules with
  | [] => full
  | _ => foldl apply ∅ rules
  end.

End RuleEvaluator.

(** How a rule of the manifest reads as a [PlatformRule]: its action is one
    of the two the specification knows. *)
Definition as_action (a : string) : option RuleEvaluator.Action :=
  if decide (a = "allow") then Some RuleEvaluator.Allow
  else if decide (a = "disallow") then Some RuleEvaluator.Disallow
  else None.

Definition as_platform_rule (r : rule) : option RuleEvaluator.PlatformRule :=
  (λ act,
     {| RuleEvaluator.rule_action := act;
        RuleEvaluator.predicate :=
          (λ o, {| RuleEvaluator.platform := os_name o;
                   RuleEvaluator.pins_version := bool_decide (is_Some (os_version o)) |})
            <$> os r |})
    <$> as_action (action r).

(** ** What get_libraries emits, entry by entry *)

(** A classifier is selected for a platform set when its name is
    [natives-<platform>] with [<platform>] in the set. *)
Definition native_for (allowed : gset string) (classifier : string) : Prop :=
  ∃ p, classifier = "natives-" +:+ p ∧ p ∈ allowed.

Lemma native_for_spec allowed classifier :
  native_for allowed classifier ↔
  Str.startswith "natives-" classifier = true ∧ Str.drop 8 classifier ∈ allowed.
Proof.
  split.
  - intros (p & -> & Hp). split; [apply Str.startswith_app|].
    by rewrite (Str.drop_app_length "natives-" p : Str.drop 8 _ = p).
  - intros [Hs Hd]. exists (Str.drop 8 classifier). split; [|done].
    exact (Str.startswith_inv "natives-" classifier Hs).
Qed.

Global Instance native_for_dec allowed classifier : Decision (native_for allowed classifier).
Proof.
  refine (cast_if (decide (Str.startswith "natives-" classifier = true
                           ∧ Str.drop 8 classifier ∈ allowed)));
    abstract (by rewrite native_for_spec).
Defined.

Definition emitted_by (lib : library) : list artifact_info :=
  match downloads lib with
  | None => []
  | Some d =>
      option_list (artifact d) ++
      (filter (λ item, native_for (parse_rules (default [] (lib_rules lib))) item.1)
              (default [] (classifiers d))).*2
  end.

(** A library entry without the classifiers that are not natives. *)
Definition only_natives (lib : library) : library :=
  {| lib_rules := lib_rules lib;
     downloads :=
       (λ d, {| artifact := artifact d;
                classifiers := filter (λ item, Str.startswith "natives-" item.1 = true)
                                 <$> classifiers d |}) <$> downloads lib |}.

(** The platforms that the [allow] rules of a list name. *)
Definition allow_names (rules : list rule) : gset string :=
  list_to_set
    (omap (λ r, if decide (action r = "allow") then os_name <$> os r else None) rules).

(** ** The vocabulary of the properties *)

(** The digest of the file at a path, if there is a file. *)
Definition digest_at (w : world) (path : string) : option string :=
  file_digest <$> fs w !! path.

(** A task has to be transferred: its file does not exist, or it carries a
    digest and the digest of its file differs. *)
Definition pending (w : world) (t : task) : Prop :=
  fs w !! task_path t = None
  ∨ (truthy (task_sha t) = true ∧ digest_at w (task_path t) ≠ task_sha t).

Global Instance pending_dec w t : Decision (pending w t).
Proof. unfold pending. apply _. Defined.

(** Its file is there and in order. *)
Definition valid (w : world) (t : task) : Prop :=
  is_Some (fs w !! task_path t)
  ∧ (truthy (task_sha t) = true → digest_at w (task_path t) = task_sha t).

(** The reason that [headless] prints with a kept task. *)
Definition reason (w : world) (t : task) : string :=
  if decide (fs w !! task_path t = None) then "missing" else "corrupt".

(** The exception that one attempt of [fetch_json] ends with, given the
    response to its GET; [None] when the attempt returns. *)
Definition fetch_attempt_error `{Environment} (r : response) : option exn :=
  match r with
  | NoResponse reason => Some (ConnectionError reason)
  | Response status body =>
      if bool_decide (400 ≤ status < 600) then Some (HTTPError status)
      else if json_loads body is None then Some JSONDecodeError
      else None
  end.





(** The message of the [ValueError] that [download_file_async] raises. *)
Definition mismatch_message (path : string) (expected_sha : option string)
    (actual_sha : string) : string :=
  "SHA1 mismatch for " +:+ path +:+ ": expected " +:+ fmt expected_sha
  +:+ ", got " +:+ actual_sha.

(** What one transfer attempt ends with, given the response to its GET:
    an exception, or success. *)
Definition transfer_error (path : string) (expected_sha : option string) (r : response)
    : option exn :=
  match r with
  | NoResponse reason => Some (ConnectionError reason)
  | Response status content =>
      if bool_decide (400 ≤ status) then Some (HTTPError status)
      else if truthy expected_sha && bool_decide (Some (file_digest content) ≠ expected_sha)
      then Some (ValueError (mismatch_message path expected_sha (file_digest content)))
      else None
  end.

(** The world after one transfer attempt: the GET is logged, and a body
    that came with a good status is in the file. *)
Definition after_transfer (u path : string) (r : response) (w : world) : world :=
  let w1 := set_requests (λ l, l ++ [u]) w in
  match r with
  | NoResponse _ => w1
  | Response status content =>
      if bool_decide (400 ≤ status) then w1 else set_fs <[path := content]> w1
  end.

(** ** A transfer among others *)

(** [holds R Q p w]: started in [w], and whatever the world has become each
    time it is resumed, the program [p] changes the world only along [R]
    and ends in a result and a world that satisfy [Q]. *)
Fixpoint holds `{Environment} {A} (R : relation world) (Q : exn + A → world → Prop)
    (p : prog A) (w : world) : Prop :=
  match p with
  | Ret a => Q (inr a) w
  | Raise e => Q (inl e) w
  | Act o k => let '(x, w') := perform o w in R w w' ∧ holds R Q (k x) w'
  | Block _ k => ∀ w', holds R Q k w'
  end.

(** Only the file at [path] may differ. *)
Definition frame (path : string) : relation world :=
  λ w w', ∀ p, p ≠ path → fs w' !! p = fs w !! p.

Definition succeeded (p : prog outcome) : Prop :=
  finished p = Some Downloaded ∨ finished p = Some Ok.

Global Instance outcome_eq_dec : EqDecision outcome.
Proof. solve_decision. Defined.

Global Instance succeeded_dec p : Decision (succeeded p).
Proof. unfold succeeded. apply _. Defined.

(** A transfer that prints "Downloaded" or "OK" leaves its file in order. *)
Definition transfer_post (t : task) : exn + outcome → world → Prop :=
  λ r w, (r = inr Downloaded ∨ r = inr Ok) → valid w t.

(** A program that returns only with the file of [t] in order. *)
Definition returns_valid {A} (t : task) : exn + A → world → Prop :=
  λ r w, (∃ a, r = inr a) → valid w t.

(** A suspended transfer of [t] is in order when what is left of it obeys
    [frame] and [transfer_post] from every world. *)
Definition parked `{Environment} (t : task) (p : prog outcome) : Prop :=
  match p with
  | Block _ k => ∀ w, holds (frame (task_path t)) (transfer_post t) k w
  | Act _ _ => False
  | _ => True
  end.

(** The files that [headless_tasks] reads through [fetch_json]. *)
Definition index_files (minecraft_dir : string) (versions : list (manifest * string))
    : list string :=
  omap (λ v : manifest * string,
          (λ a, index_file minecraft_dir (index_id a)) <$> assetIndex v.1) versions.





(** ** The claims that do not hold, as they are stated *)

(** The claim that a transfer whose three attempts all write a content with
    a wrong digest ends as failed with a digest mismatch and leaves no file
    with a wrong digest at its path. *)
Definition leaves_no_corrupt_file `{Environment} (w : world) (u path : string)
    (expected_sha : option string) : Prop :=
  truthy expected_sha = true →
  fs w !! path = None →
  (∀ i, (i < 3)%nat → ∃ status content,
      server (length (requests w) + i) u = Response status content
      ∧ status < 400 ∧ Some (file_digest content) ≠ expected_sha) →
  let '(r, w') := run (download_file_async_with_retry (Some u) path expected_sha 3 2) w in
  (∃ msg, r = inl (ValueError msg))
  ∧ ∀ content, fs w' !! path = Some content → Some (file_digest content) = expected_sha.



(** ** The scenarios *)

(** *** A remote side that corrupts *)

Definition empty_world : world :=
  {| fs := ∅; requests := []; slept := []; permits := 0 |}.

(** A remote side that answers every GET with the same wrong content. *)
Definition corrupting_environment : Environment :=
  {| server := λ _ _, Response 200 "corrupt"; json_loads := λ _, None |}.

(** SHA-1 of "hello" *)
Definition sha1_hello : string := "aaf4c61ddcc5e8a2dabede0f3b482cd9aea9434d".

(** *** An asset index that lists one digest under two names *)

Definition dq : string := String (ascii_of_nat 34) "".

(** {"objects": {"a.png": {"hash": H}, "b.png": {"hash": H}}} with H the
    SHA-1 of "hello" *)
Definition index_text : string :=
  "{" +:+ dq +:+ "objects" +:+ dq +:+ ": {"
  +:+ dq +:+ "a.png" +:+ dq +:+ ": {" +:+ dq +:+ "hash" +:+ dq +:+ ": "
  +:+ dq +:+ sha1_hello +:+ dq +:+ "}, "
  +:+ dq +:+ "b.png" +:+ dq +:+ ": {" +:+ dq +:+ "hash" +:+ dq +:+ ": "
  +:+ dq +:+ sha1_hello +:+ dq +:+ "}}}".

Definition the_index : asset_index :=
  {| objects := Some [ ("a.png", {| hash := sha1_hello |});
                       ("b.png", {| hash := sha1_hello |}) ] |}.

Definition the_index_url : string := "https://host/indexes/5.json".

Definition hello_url : string :=
  "https://resources.download.minecraft.net/aa/" +:+ sha1_hello.

(** The remote side serves the index and the object; [json] parses the
    index text. *)
Definition assets_environment : Environment :=
  {| server := λ _ url,
       if decide (url = the_index_url) then Response 200 index_text
       else if decide (url = hello_url) then Response 200 "hello"
       else Response 404 "";
     json_loads := λ text, if decide (text = index_text) then Some the_index else None |}.

Definition assets_manifest : manifest :=
  {| manifest_downloads_of := None; libraries := None;
     assetIndex := Some {| index_url := the_index_url; index_id := "5" |} |}.

Definition assets_versions : list (manifest * string) :=
  [(assets_manifest, "mc/versions/1/1.jar")].

Definition hello_task : task :=
  {| task_url := Some hello_url;
     task_path := "mc/assets/objects/aa/" +:+ sha1_hello;
     task_sha := Some sha1_hello |}.

(** The world once the index is cached. *)
Definition cached_world : world :=
  {| fs := {[ "mc/assets/5.json" := index_text ]};
     requests := [the_index_url]; slept := []; permits := 0 |}.

(** The event loop giving its turns to two transfers in alternation. *)
Definition round_robin : list nat := [0; 1; 0; 1; 0; 1; 0; 1]%nat.

(** *** Two libraries that claim one path with different digests *)

(** SHA-1 of "world" *)
Definition sha1_world : string := "7c211433f02071597741e6ff5a8ea34789abbf43".

Definition two_jars_environment : Environment :=
  {| server := λ _ url,
       if decide (url = "https://host/a.jar") then Response 200 "hello"
       else if decide (url = "https://host/b.jar") then Response 200 "world"
       else Response 404 "";
     json_loads := λ _, None |}.



(** *** The library entry of the specification's scenario *)

Definition linux_only_library : library :=
  {| lib_rules := Some [ {| action := "allow";
                            os := Some {| os_name := "linux"; os_version := None |} |} ];
     downloads :=
       Some {| artifact := Some {| info_url := Some "https://host/lwjgl.jar";
                                   info_path := Some "org/lwjgl/lwjgl.jar";
                                   info_sha1 := None |};
               classifiers :=
                 Some [ ("natives-linux",
                         {| info_url := Some "https://host/lwjgl-natives-linux.jar";
                            info_path := Some "org/lwjgl/lwjgl-natives-linux.jar";
                            info_sha1 := None |});
                        ("natives-windows",
                         {| info_url := Some "https://host/lwjgl-natives-windows.jar";
                            info_path := Some "org/lwjgl/lwjgl-natives-windows.jar";
                            info_sha1 := None |});
                        ("sources",
                         {| info_url := Some "https://host/lwjgl-sources.jar";
                            info_path := Some "org/lwjgl/lwjgl-sources.jar";
                            info_sha1 := None |}) ] |} |}.

(** ** The vocabulary of the further properties *)

(** A [disallow] rule whose [os] pins a version. *)
Definition version_disallow (r : rule) : Prop :=
  action r = "disallow" ∧ ∃ o, os r = Some o ∧ is_Some (os_version o).

(** A rule has a say on a platform: it has no [os] and the platform is one
    of [ALL_OS], or its [os] names the platform and it is not a [disallow]
    with a version. *)
Definition applies (p : string) (r : rule) : Prop :=
  match os r with
  | None => p ∈ ALL_OS
  | Some o => os_name o = p ∧ ¬ (action r = "disallow" ∧ is_Some (os_version o))
  end.

Global Instance applies_dec p r : Decision (applies p r).
Proof. unfold applies. destruct (os r); apply _. Defined.

(** The message of the [ValueError] that [download_file_async_with_retry]
    raises from its own comparison of the digests. *)
Definition after_download_message (path : string) (expected_sha : option string)
    (actual : string) : string :=
  "SHA1 mismatch for " +:+ path +:+ " after download: expected " +:+ fmt expected_sha
  +:+ ", got " +:+ actual.

(** What a program ends with is not that [ValueError]. *)
Definition not_after_download {A} (path : string) (expected_sha : option string)
    : exn + A → world → Prop :=
  λ r _, ∀ actual, r ≠ inl (ValueError (after_download_message path expected_sha actual)).

(** [c in s] for a character *)
Fixpoint contains_char (c : ascii) (s : string) : bool :=
  match s with
  | "" => false
  | String a s' => bool_decide (a = c) || contains_char c s'
  end.

(** [sep.join(l)] for a one-character [sep] *)
Fixpoint join_with (sep : ascii) (l : list string) : string :=
  match l with
  | [] => ""
  | c :: l' =>
      match l' with
      | [] => c
      | _ :: _ => c +:+ String sep (join_with sep l')
      end
  end.

(** The result of a program with every returned list prefixed. *)
Definition prefixed {A} (acc : list A) (r : (exn + list A) * world)
    : (exn + list A) * world :=
  match r with
  | (inr l, w) => (inr (acc ++ l), w)
  | (inl e, w) => (inl e, w)
  end.

(** The tasks that a run of [headless] finds to transfer. *)
Definition planned `{Environment} (minecraft_dir : string)
    (versions : list (manifest * string)) (w : world) : list task :=
  match run (headless_tasks minecraft_dir versions) w with
  | (inr tasks, w1) => filter (pending w1) tasks
  | (inl _, _) => []
  end.

(** Only the files at [paths] may differ. *)
Definition frame_of (paths : list string) : relation world :=
  λ w w', ∀ p, p ∉ paths → fs w' !! p = fs w !! p.

(** What the event loop keeps true of one transfer, given what the
    transfer promises ([R] for its steps, [Q] for its end): suspended, what
    is left of it keeps the promise from every world; ended, it has ended
    as promised. *)
Definition kept `{Environment} (R : relation world) (Q : exn + outcome → world → Prop)
    (p : prog outcome) : Prop :=
  match p with
  | Block _ k => ∀ w, holds R Q k w
  | Act _ _ => False
  | Ret o => ∃ w, Q (inr o) w
  | Raise e => ∃ w, Q (inl e) w
  end.

(** A transfer is suspended or has printed its line: no exception has left
    it. *)
Definition contained (p : prog outcome) : Prop :=
  match p with
  | Block _ _ | Ret _ => True
  | Raise _ | Act _ _ => False
  end.

(** The effect is a GET. *)
Definition is_get {X} (o : op X) : bool :=
  match o with
  | Get _ => true
  | _ => false
  end.

(** On every path, the program sends at most [n] GETs. *)
Fixpoint at_most_gets {A} (n : nat) (p : prog A) : Prop :=
  match p with
  | Ret _ | Raise _ => True
  | Block _ k => at_most_gets n k
  | Act o k =>
      if is_get o
      then match n with
           | O => False
           | S n' => ∀ x, at_most_gets n' (k x)
           end
      else ∀ x, at_most_gets n (k x)
  end.

(** What an effect does to the semaphore: [Some true] takes a permit,
    [Some false] gives one back. *)
Definition permit_change {X} (o : op X) : option bool :=
  match o with
  | Acquire => Some true
  | Release => Some false
  | _ => None
  end.

(** A program that leaves the semaphore alone. *)
Fixpoint quiet {A} (p : prog A) : Prop :=
  match p with
  | Ret _ | Raise _ => True
  | Block _ k => quiet k
  | Act o k => permit_change o = None ∧ ∀ x, quiet (k x)
  end.

(** What is left of a transfer that is inside [async with semaphore]: on
    every path it takes no permit, gives one back once, and returns right
    after that. *)
Fixpoint holds_permit (p : prog outcome) : Prop :=
  match p with
  | Ret _ | Raise _ => False
  | Block _ k => holds_permit k
  | Act o k =>
      match permit_change o with
      | Some true => False
      | Some false => ∀ x, ∃ o', k x = Ret o'
      | None => ∀ x, holds_permit (k x)
      end
  end.

(** The state of a transfer of the pool: marked, it is inside
    [async with semaphore]; not marked, it has not been resumed yet, or it
    has ended. *)
Definition accounted (mark : bool) (p : prog outcome) : Prop :=
  if mark then holds_permit p else (∃ t, p = dl t) ∨ is_Some (finished p).

(** ** Further scenarios *)

(** The world that [fetch_json] leaves when the three bodies it received
    for cache/5.json were not JSON. *)
Definition poisoned_world : world :=
  {| fs := {[ "cache/5.json" := "corrupt" ]};
     requests := ["https://host/5.json"; "https://host/5.json"; "https://host/5.json"];
     slept := [1; 2]; permits := 0 |}.

(** An asset index whose one object has a path where its digest should
    be. *)
Definition absolute_index : asset_index :=
  {| objects := Some [ ("a.png", {| hash := "/home/user/.profile" |}) ] |}.

Definition absolute_environment : Environment :=
  {| server := λ _ _, Response 200 "index";
     json_loads := λ text, if decide (text = "index") then Some absolute_index else None |}.

(** A library artifact that names neither a path nor a url. *)
Definition pathless_library : library :=
  {| lib_rules := None;
     downloads := Some {| artifact := Some {| info_url := None; info_path := None;
                                              info_sha1 := None |};
                          classifiers := None |} |}.

Definition pathless_versions : list (manifest * string) :=
  [({| manifest_downloads_of := None; libraries := Some [pathless_library];
       assetIndex := None |}, "mc/versions/1/1.jar")].


(** * Properties *)

(** ** Facts about strings *)

Module StrFacts.

Lemma app_nil_l s : "" +:+ s = s.
Proof. reflexivity. Qed.

Lemma take_drop n s : Str.take n s +:+ Str.drop n s = s.
Proof.
  revert s; induction n as [|n IH]; intros [|c s]; simpl; try done.
  by rewrite Str.app_cons, IH.
Qed.

Lemma length_drop n s : String.length (Str.drop n s) = (String.length s - n)%nat.
Proof. revert s; induction n as [|n IH]; intros [|c s]; simpl; auto. Qed.

Lemma take_nil_inv n s : Str.take n s = "" → n = O ∨ s = "".
Proof. destruct n, s; simpl; auto; discriminate. Qed.

Lemma app_nil_r s : s +:+ "" = s.
Proof. induction s as [|c s IH]; [done|]. by rewrite Str.app_cons, IH. Qed.

Lemma app_assoc s1 s2 s3 : (s1 +:+ s2) +:+ s3 = s1 +:+ (s2 +:+ s3).
Proof. induction s1 as [|c s1 IH]; [done|]. by rewrite !Str.app_cons, IH. Qed.

(** Python's [startswith] says exactly that the string is the prefix
    followed by something. *)
Lemma startswith_iff p s : Str.startswith p s = true ↔ ∃ r, s = p +:+ r.
Proof.
  split.
  - intros Hs. eexists. by apply Str.startswith_inv.
  - intros [r ->]. apply Str.startswith_app.
Qed.

End StrFacts.

(** ** Checks of the definitions *)

Example sha1_empty : Sha1.hexdigest_of "" = "da39a3ee5e6b4b0d3255bfef95601890afd80709".
Proof. vm_compute. reflexivity. Qed.

Example sha1_abc : Sha1.hexdigest_of "abc" = "a9993e364706816aba3e25717850c26c9cd0d89d".
Proof. vm_compute. reflexivity. Qed.

Example sha1_two_blocks :
  Sha1.hexdigest_of "abcdbcdecdefdefgefghfghighijhijkijkljklmklmnlmnomnopnopq"
  = "84983e441c3bd26ebaae4aa1f95129e5e54670f1".
Proof. vm_compute. reflexivity. Qed.

Example dirname_nested : Path.dirname "root/assets/indexes/5.json" = "root/assets/indexes".
Proof. reflexivity. Qed.

Example dirname_plain : Path.dirname "5.json" = "".
Proof. reflexivity. Qed.

Example dirname_root : Path.dirname "/5.json" = "/".
Proof. reflexivity. Qed.

Example join_plain :
  Path.join "root" ["assets"; "objects"; "ab"; "abcd"] = "root/assets/objects/ab/abcd".
Proof. reflexivity. Qed.

Example join_absolute : Path.join "root" ["assets"; "/etc"; "x"] = "/etc/x".
Proof. reflexivity. Qed.

Example split_path : Str.split "/" "org/lwjgl/lwjgl.jar" = ["org"; "lwjgl"; "lwjgl.jar"].
Proof. reflexivity. Qed.

Example replace_prefix :
  Str.replace "https://libraries.minecraft.net/" "" "https://libraries.minecraft.net/a/b.jar"
  = "a/b.jar".
Proof. reflexivity. Qed.

(** ** Rule evaluation *)

Section rules.
Implicit Types (rules : list rule) (acc : gset string).

Lemma ALL_OS_full : list_to_set ALL_OS = RuleEvaluator.full.
Proof. unfold ALL_OS, RuleEvaluator.full. set_solver. Qed.

Lemma parse_rules_step_refines acc r pr :
  as_platform_rule r = Some pr →
  parse_rules_step acc r = RuleEvaluator.apply acc pr.
Proof.
  unfold as_platform_rule, as_action, parse_rules_step, RuleEvaluator.apply,
    RuleEvaluator.implied.
  rewrite ALL_OS_full. destruct r as [a o]; simpl.
  destruct (decide (a = "allow")) as [->|Ha]; simpl.
  { intros [= <-]; simpl. by destruct o as [[n v]|]. }
  destruct (decide (a = "disallow")) as [->|Hd]; simpl; [|done].
  intros [= <-]; simpl.
  destruct o as [[n v]|]; simpl; [|done].
  by destruct (bool_decide (is_Some v)).
Qed.

Lemma foldl_parse_rules_refines rules prs acc :
  mapM as_platform_rule rules = Some prs →
  foldl parse_rules_step acc rules = foldl RuleEvaluator.apply acc prs.
Proof.
  revert prs acc. induction rules as [|r rules IH]; intros prs acc H.
  - by injection H as <-.
  - rewrite mapM_Some in H. destruct prs as [|pr prs]; [by inversion H|].
    apply Forall2_cons_1 in H as [Hr Hrs]. simpl.
    rewrite (parse_rules_step_refines _ _ _ Hr).
    apply IH. by rewrite mapM_Some.
Qed.

(** C3: on every rule list whose actions are [allow] or [disallow],
    [parse_rules] computes what the specification's reference definition
    computes: the full set for the empty list, otherwise the left fold
    from the empty set of union (allow) and difference (disallow) with
    each rule's implied set. *)
Theorem parse_rules_refines_evaluate rules prs :
  mapM as_platform_rule rules = Some prs →
  parse_rules rules = RuleEvaluator.evaluate prs.
Proof.
  intros H. pose proof H as Hlen. rewrite mapM_Some in Hlen.
  apply Forall2_length in Hlen.
  destruct rules as [|r rules], prs as [|pr prs]; try done.
  unfold parse_rules, RuleEvaluator.evaluate.
  by apply foldl_parse_rules_refines.
Qed.

End rules.

(** The scenario of the specification: allow everything, then disallow
    linux. *)
Definition allow_all_but_linux : list rule :=
  [ {| action := "allow"; os := None |};
    {| action := "disallow"; os := Some {| os_name := "linux"; os_version := None |} |} ].

Example parse_rules_allow_all_but_linux :
  parse_rules allow_all_but_linux = {[ "osx"; "windows" ]}.
Proof. apply set_eq. intros x. vm_compute parse_rules. set_solver. Qed.

Lemma parse_rules_refines_evaluate_witness :
  mapM as_platform_rule allow_all_but_linux
  = Some [ {| RuleEvaluator.rule_action := RuleEvaluator.Allow;
              RuleEvaluator.predicate := None |};
           {| RuleEvaluator.rule_action := RuleEvaluator.Disallow;
              RuleEvaluator.predicate :=
                Some {| RuleEvaluator.platform := "linux";
                        RuleEvaluator.pins_version := false |} |} ]
  ∧ parse_rules allow_all_but_linux
    = RuleEvaluator.evaluate
        [ {| RuleEvaluator.rule_action := RuleEvaluator.Allow;
             RuleEvaluator.predicate := None |};
          {| RuleEvaluator.rule_action := RuleEvaluator.Disallow;
             RuleEvaluator.predicate :=
               Some {| RuleEvaluator.platform := "linux";
                       RuleEvaluator.pins_version := false |} |} ].
Proof.
  split; [reflexivity|].
  apply (parse_rules_refines_evaluate allow_all_but_linux). reflexivity.
Defined.

Section platform_bound.
Implicit Types (rules : list rule) (acc : gset string).

Lemma parse_rules_step_bound acc r :
  parse_rules_step acc r ⊆ acc ∪ list_to_set ALL_OS ∪ allow_names [r].
Proof.
  unfold parse_rules_step, allow_names. simpl.
  destruct r as [a o]; simpl.
  case_bool_decide as Ha; simpl.
  - rewrite decide_True by done.
    destruct o as [[n v]|]; simpl; [|set_solver].
    subst a. rewrite (bool_decide_false ("allow" = "disallow")) by done. simpl.
    set_solver.
  - set_solver.
Qed.

Lemma allow_names_cons r rules :
  allow_names (r :: rules) = allow_names [r] ∪ allow_names rules.
Proof.
  unfold allow_names. simpl.
  destruct (if decide (action r = "allow") then os_name <$> os r else None);
    simpl; set_solver.
Qed.

Lemma foldl_parse_rules_bound rules acc :
  foldl parse_rules_step acc rules ⊆ acc ∪ list_to_set ALL_OS ∪ allow_names rules.
Proof.
  revert acc. induction rules as [|r rules IH]; intros acc; simpl.
  - set_solver.
  - specialize (IH (parse_rules_step acc r)).
    pose proof (parse_rules_step_bound acc r).
    rewrite allow_names_cons. set_solver.
Qed.

(** C8 (amended): the platform set of a rule list is a subset of
    {osx, linux, windows} together with the platforms that the list's
    [allow] rules name. *)
Theorem parse_rules_bound rules :
  parse_rules rules ⊆ list_to_set ALL_OS ∪ allow_names rules.
Proof.
  destruct rules as [|r rules]; [set_solver|].
  unfold parse_rules.
  pose proof (foldl_parse_rules_bound (r :: rules) ∅). set_solver.
Qed.

(** C8 as stated fails: an [allow] rule may name any platform. *)
Lemma parse_rules_not_within_ALL_OS :
  ¬ (parse_rules
       [ {| action := "allow";
            os := Some {| os_name := "solaris"; os_version := None |} |} ]
     ⊆ list_to_set ALL_OS).
Proof.
  intros H. specialize (H "solaris").
  assert (Hin : "solaris" ∈ parse_rules
       [ {| action := "allow";
            os := Some {| os_name := "solaris"; os_version := None |} |} ]).
  { vm_compute parse_rules. set_solver. }
  apply H in Hin. unfold ALL_OS in Hin. set_solver.
Qed.

End platform_bound.

(** ** Library resolution *)

Section libraries.
Implicit Types (libs : list library) (acc : list artifact_info)
  (cs : list (string * artifact_info)) (allowed : gset string).

Lemma classifier_step_native allowed acc c info :
  native_for allowed c → classifier_step allowed acc (c, info) = acc ++ [info].
Proof.
  intros [Hs Hd]%native_for_spec. unfold classifier_step.
  by rewrite Hs, decide_True.
Qed.

Lemma classifier_step_other allowed acc c info :
  ¬ native_for allowed c → classifier_step allowed acc (c, info) = acc.
Proof.
  rewrite native_for_spec. intros Hn. unfold classifier_step.
  destruct (Str.startswith "natives-" c) eqn:Hs; [|done].
  case_decide; [|done]. by destruct Hn.
Qed.

(** A classifier that is not named [natives-...] appends nothing, whatever
    the platform set. *)
Lemma classifier_step_not_natives allowed acc c info :
  Str.startswith "natives-" c ≠ true → classifier_step allowed acc (c, info) = acc.
Proof. intros Hs. apply classifier_step_other. rewrite native_for_spec. tauto. Qed.

Lemma foldl_classifier_step allowed cs acc :
  foldl (classifier_step allowed) acc cs
  = acc ++ (filter (λ item, native_for allowed item.1) cs).*2.
Proof.
  revert acc. induction cs as [|[c info] cs IH]; intros acc; cbn [foldl].
  - by rewrite filter_nil, app_nil_r.
  - rewrite IH. destruct (decide (native_for allowed c)) as [Hc|Hc].
    + rewrite classifier_step_native by done.
      rewrite filter_cons_True by done. simpl. by rewrite <- app_assoc.
    + rewrite classifier_step_other by done.
      by rewrite filter_cons_False by done.
Qed.

Lemma library_step_emits acc lib : library_step acc lib = acc ++ emitted_by lib.
Proof.
  unfold library_step, emitted_by.
  destruct (downloads lib) as [d|]; [|by rewrite app_nil_r].
  destruct (classifiers d) as [cs|]; simpl.
  - rewrite foldl_classifier_step.
    destruct (artifact d); simpl; by rewrite <- ?app_assoc.
  - rewrite app_nil_r. destruct (artifact d); simpl; by rewrite ?app_nil_r.
Qed.

Lemma foldl_library_step libs acc :
  foldl library_step acc libs = acc ++ (libs ≫= emitted_by).
Proof.
  revert acc. induction libs as [|lib libs IH]; intros acc; simpl.
  - by rewrite app_nil_r.
  - by rewrite IH, library_step_emits, <- app_assoc.
Qed.

(** C4: for every list of library entries, [get_libraries] emits, entry by
    entry and in order, the primary artifact of an entry with a downloads
    section whenever it has one (whatever its rules evaluate to), followed
    by exactly those classifiers named [natives-<platform>] whose
    [<platform>] is in the entry's evaluated platform set. *)
Theorem get_libraries_emits libs : get_libraries libs = libs ≫= emitted_by.
Proof.
  unfold get_libraries.
  induction libs as [|lib libs IH] using rev_ind; [done|].
  rewrite foldl_app. cbn [foldl]. rewrite library_step_emits, IH.
  rewrite bind_app, bind_cons. simpl. by rewrite app_nil_r.
Qed.

Lemma emitted_by_only_natives lib : emitted_by (only_natives lib) = emitted_by lib.
Proof.
  unfold emitted_by, only_natives. simpl.
  destruct (downloads lib) as [d|]; simpl; [|done].
  f_equal. destruct (classifiers d) as [cs|]; simpl; [|done]. f_equal.
  rewrite list_filter_filter. apply list_filter_iff.
  intros [c info]; simpl. rewrite native_for_spec. tauto.
Qed.

(** C10: the classifiers whose name does not start with [natives-] play no
    part in what [get_libraries] emits: removing them from every entry
    leaves the result unchanged, whatever the entries' rules are. *)
Theorem get_libraries_ignores_other_classifiers libs :
  get_libraries (only_natives <$> libs) = get_libraries libs.
Proof.
  unfold get_libraries. rewrite !foldl_library_step. simpl.
  induction libs as [|lib libs IH]; [done|].
  rewrite fmap_cons, !bind_cons. by rewrite emitted_by_only_natives, IH.
Qed.

End libraries.

(** ** Running programs *)

Section running.
Context `{Environment}.
Local Open Scope prog_scope.

Lemma run_bind {A B} (p : prog A) (f : A → prog B) w :
  run (bind p f) w
  = match run p w with
    | (inr a, w') => run (f a) w'
    | (inl e, w') => (inl e, w')
    end.
Proof.
  revert w. induction p as [a|e|X o k IH|ready k IH]; intros w; simpl; try done.
  destruct (perform o w) as [x w']. apply IH.
Qed.

Lemma run_try_catch {A} (p : prog A) (handler : exn → prog A) w :
  run (try_catch p handler) w
  = match run p w with
    | (inr a, w') => (inr a, w')
    | (inl e, w') => run (handler e) w'
    end.
Proof.
  revert w. induction p as [a|e|X o k IH|ready k IH]; intros w; simpl; try done.
  destruct (perform o w) as [x w']. apply IH.
Qed.

Lemma CHUNK_pos : ∃ n, CHUNK = S n.
Proof. by eexists; vm_compute. Qed.

Lemma read_chunks_fed fuel sha1 rest :
  (String.length rest < fuel)%nat →
  Sha1.fed (read_chunks fuel sha1 rest) = Sha1.fed sha1 +:+ rest.
Proof.
  destruct CHUNK_pos as [n Hn].
  revert sha1 rest. induction fuel as [|fuel IH]; intros sha1 rest Hlen; [lia|].
  cbn [read_chunks]. destruct (Str.take CHUNK rest) as [|c chunk] eqn:Htake.
  - apply StrFacts.take_nil_inv in Htake as [Hz| ->]; [congruence|].
    by rewrite StrFacts.app_nil_r.
  - rewrite IH.
    + cbn [Sha1.update Sha1.fed]. rewrite <- Htake, StrFacts.app_assoc.
      by rewrite StrFacts.take_drop.
    + rewrite StrFacts.length_drop. destruct rest; [by rewrite Hn in Htake|].
      simpl in *. lia.
Qed.

(** Reading in chunks does not show: the digest of a file is the SHA-1 of
    its content. *)
Lemma file_digest_sha1 content : file_digest content = Sha1.hexdigest_of content.
Proof.
  unfold file_digest, Sha1.hexdigest. rewrite read_chunks_fed by lia. done.
Qed.

Lemma run_compute_sha1 w path :
  run (compute_sha1 path) w
  = (match fs w !! path with
     | Some content => inr (file_digest content)
     | None => inl (FileNotFoundError path)
     end, w).
Proof. unfold compute_sha1. simpl. by destruct (fs w !! path). Qed.

End running.

(** ** The planner *)

Section planner.
Context `{Environment}.
Local Open Scope prog_scope.
Implicit Types (w : world) (t : task) (tasks : list task).

Lemma pending_missing w t : fs w !! task_path t = None → pending w t.
Proof. by left. Qed.



Lemma pending_cases w t :
  pending w t ↔
  match fs w !! task_path t with
  | None => True
  | Some c => truthy (task_sha t) = true ∧ Some (file_digest c) ≠ task_sha t
  end.
Proof.
  unfold pending, digest_at. destruct (fs w !! task_path t) as [c|]; simpl.
  - split; [by intros [?|?]|by right].
  - split; [done|by left].
Qed.

Lemma run_to_download_step w acc t :
  run (to_download_step acc t) w
  = (inr (if decide (pending w t) then acc ++ [(t, reason w t)] else acc), w).
Proof.
  pose proof (pending_cases w t) as Hp. unfold reason.
  destruct (decide (pending w t)) as [Hd|Hd]; rewrite Hp in Hd; clear Hp;
    unfold to_download_step; simpl;
    destruct (fs w !! task_path t) as [c|] eqn:Hc; simpl.
  - destruct Hd as [Ht Hd]. rewrite Ht. simpl.
    rewrite Hc. simpl. by rewrite bool_decide_true.
  - done.
  - destruct (truthy (task_sha t)); [|done]. simpl.
    rewrite Hc. simpl. rewrite bool_decide_false; [done|]. intros ?. by apply Hd.
  - by destruct Hd.
Qed.


Lemma run_for_each_to_download w tasks acc :
  run (for_each to_download_step acc tasks) w
  = (inr (acc ++ ((λ t, (t, reason w t)) <$> filter (pending w) tasks)), w).
Proof.
  revert acc. induction tasks as [|t tasks IH]; intros acc; cbn [for_each].
  - simpl. by rewrite app_nil_r.
  - rewrite run_bind, run_to_download_step, IH.
    destruct (decide (pending w t)).
    + rewrite filter_cons_True by done. by rewrite fmap_cons, <- app_assoc.
    + by rewrite filter_cons_False by done.
Qed.


Lemma run_headless_to_download w tasks :
  run (headless_to_download tasks) w
  = (inr ((λ t, (t, reason w t)) <$> filter (pending w) tasks), w).
Proof. apply run_for_each_to_download. Qed.


End planner.

(** ** The manifest fetcher *)

Section fetcher.
Context `{Environment}.
Local Open Scope prog_scope.
Implicit Types (w : world) (url filename : string).

(** One attempt: a GET, then either the exception of [fetch_attempt_error]
    or the parsed body, which is then in the cache. *)
Lemma run_fetch_json_attempt w url filename :
  ∃ w1,
    requests w1 = requests w ++ [url] ∧ slept w1 = slept w ∧
    match fetch_attempt_error (server (length (requests w)) url) with
    | Some e => run (fetch_json_attempt url filename) w = (inl e, w1)
    | None =>
        ∃ status body document,
          server (length (requests w)) url = Response status body
          ∧ json_loads body = Some document
          ∧ fs w1 !! filename = Some body
          ∧ run (fetch_json_attempt url filename) w = (inr (Some document), w1)
    end.
Proof.
  unfold fetch_json_attempt, fetch_attempt_error, requests_raise_for_status. simpl.
  set (w1 := set_requests (λ l, l ++ [url]) w).
  destruct (server (length (requests w)) url) as [reason|status body]; simpl.
  { by exists w1. }
  destruct (bool_decide (400 ≤ status < 600)); simpl.
  { by exists w1. }
  unfold parse_json. exists (set_fs <[filename := body]> w1).
  split; [done|]. split; [done|].
  destruct (json_loads body) as [document|] eqn:Hdoc.
  - exists status, body, document. simpl. rewrite lookup_insert_eq.
    repeat split; try done.
    by destruct (bool_decide (Path.dirname filename = "")); simpl.
  - by destruct (bool_decide (Path.dirname filename = "")); simpl.
Qed.

Lemma run_fetch_json_loop_cons w attempt attempts url filename :
  run (fetch_json_loop (attempt :: attempts) url filename) w
  = match run (fetch_json_attempt url filename) w with
    | (inr document, w1) => (inr document, w1)
    | (inl e, w1) =>
        if bool_decide (attempt < 2)
        then run (fetch_json_loop attempts url filename)
               (set_slept (λ l, l ++ [2 ^ attempt]) w1)
        else (inl e, w1)
    end.
Proof.
  cbn [fetch_json_loop]. rewrite run_try_catch.
  destruct (run (fetch_json_attempt url filename) w) as [[e|document] w1]; [|done].
  by destruct (bool_decide (attempt < 2)).
Qed.

Lemma run_fetch_json_cached w filename url text :
  fs w !! filename = Some text →
  run (fetch_json url filename) w
  = (match json_loads text with
     | Some document => inr (Some document)
     | None => inl JSONDecodeError
     end, w).
Proof.
  intros Hc. unfold fetch_json, parse_json. simpl. rewrite Hc. simpl. rewrite Hc. simpl.
  by destruct (json_loads text).
Qed.

Lemma run_fetch_json_uncached w filename url :
  fs w !! filename = None →
  run (fetch_json url filename) w = run (fetch_json_loop [0; 1; 2] url filename) w.
Proof. intros Hc. unfold fetch_json. simpl. by rewrite Hc. Qed.

(** What a call of [fetch_json] that starts without a cached file does:
    [k] attempts, the earlier ones failed, the sleeps 1, 2 between them. *)
Lemma run_fetch_json_loop w url filename :
  let n := length (requests w) in
  ∃ k r w', run (fetch_json_loop [0; 1; 2] url filename) w = (r, w')
    ∧ (1 ≤ k ≤ 3)%nat
    ∧ requests w' = requests w ++ replicate k url
    ∧ slept w' = slept w ++ take (k - 1) [1; 2]
    ∧ (∀ i, (i < k - 1)%nat → is_Some (fetch_attempt_error (server (n + i) url)))
    ∧ match r with
      | inl e => k = 3%nat ∧ fetch_attempt_error (server (n + 2) url) = Some e
      | inr document =>
          fetch_attempt_error (server (n + (k - 1)) url) = None
          ∧ ∃ status body d,
              server (n + (k - 1)) url = Response status body
              ∧ json_loads body = Some d
              ∧ document = Some d
              ∧ fs w' !! filename = Some body
      end.
Proof.
  intros n.
  destruct (run_fetch_json_attempt w url filename) as (w1 & Hr1 & Hs1 & H1).
  fold n in H1. rewrite run_fetch_json_loop_cons.
  destruct (fetch_attempt_error (server n url)) as [e1|] eqn:E1; last first.
  { destruct H1 as (status & body & d & Hresp & Hd & Hfs & ->).
    exists 1%nat, (inr (Some d)), w1. rewrite Nat.add_0_r, E1.
    repeat split; try done; try lia.
    - by rewrite Hs1, app_nil_r.
    - by exists status, body, d. }
  rewrite H1. rewrite bool_decide_true by lia.
  set (w1' := set_slept (λ l, l ++ [2 ^ 0]) w1).
  destruct (run_fetch_json_attempt w1' url filename) as (w2 & Hr2 & Hs2 & H2).
  assert (Hn1 : length (requests w1') = (n + 1)%nat).
  { simpl. rewrite Hr1, length_app. simpl. done. }
  rewrite Hn1 in H2. rewrite run_fetch_json_loop_cons.
  destruct (fetch_attempt_error (server (n + 1) url)) as [e2|] eqn:E2; last first.
  { destruct H2 as (status & body & d & Hresp & Hd & Hfs & ->).
    exists 2%nat, (inr (Some d)), w2. simpl. rewrite E2.
    repeat split; try done; try lia.
    - rewrite Hr2. simpl. rewrite Hr1, <- app_assoc. done.
    - rewrite Hs2. simpl. by rewrite Hs1.
    - intros i Hi. assert (i = 0)%nat as -> by lia. rewrite Nat.add_0_r, E1. eauto.
    - by exists status, body, d. }
  rewrite H2. rewrite bool_decide_true by lia.
  set (w2' := set_slept (λ l, l ++ [2 ^ 1]) w2).
  destruct (run_fetch_json_attempt w2' url filename) as (w3 & Hr3 & Hs3 & H3).
  assert (Hn2 : length (requests w2') = (n + 2)%nat).
  { simpl. rewrite Hr2. simpl. rewrite Hr1, !length_app. simpl. lia. }
  rewrite Hn2 in H3. rewrite run_fetch_json_loop_cons.
  assert (Hreq : requests w3 = requests w ++ replicate 3 url).
  { rewrite Hr3. simpl. rewrite Hr2. simpl. rewrite Hr1, <- !app_assoc. done. }
  assert (Hsl : slept w3 = slept w ++ [1; 2]).
  { rewrite Hs3. simpl. rewrite Hs2. simpl. rewrite Hs1, <- !app_assoc. done. }
  assert (Hearlier : ∀ i, (i < 3 - 1)%nat →
                          is_Some (fetch_attempt_error (server (n + i) url))).
  { intros i Hi. destruct i as [|[|i]]; [| |lia].
    - rewrite Nat.add_0_r, E1. eauto.
    - rewrite E2. eauto. }
  destruct (fetch_attempt_error (server (n + 2) url)) as [e3|] eqn:E3.
  - rewrite H3. rewrite bool_decide_false by lia.
    exists 3%nat, (inl e3), w3. repeat split; try done; lia.
  - destruct H3 as (status & body & d & Hresp & Hd & Hfs & ->).
    exists 3%nat, (inr (Some d)), w3. simpl.
    repeat split; try done; try lia.
    by exists status, body, d.
Qed.

(** C6: when a file is at the cache location, [fetch_json] returns what it
    parses to (or the parser's error) and leaves the world as it is, so no
    GET is issued, whatever the file holds; otherwise it issues [k] GETs
    for the url, 1 <= k <= 3, sleeping 1 and then 2 seconds between them,
    each attempt before the last having failed; if it does not return
    then k = 3 and its exception is the one of the third attempt, and it
    does not return when all three attempts fail. *)
Theorem fetch_json_cached_or_three_attempts w url filename :
  let '(r, w') := run (fetch_json url filename) w in
  match fs w !! filename with
  | Some text =>
      w' = w
      ∧ r = match json_loads text with
            | Some document => inr (Some document)
            | None => inl JSONDecodeError
            end
  | None =>
      let n := length (requests w) in
      ∃ k, (1 ≤ k ≤ 3)%nat
        ∧ requests w' = requests w ++ replicate k url
        ∧ slept w' = slept w ++ take (k - 1) [1; 2]
        ∧ (∀ i, (i < k - 1)%nat → is_Some (fetch_attempt_error (server (n + i) url)))
        ∧ match r with
          | inl e => k = 3%nat ∧ fetch_attempt_error (server (n + 2) url) = Some e
          | inr document =>
              fetch_attempt_error (server (n + (k - 1)) url) = None
              ∧ ∃ status body d,
                  server (n + (k - 1)) url = Response status body
                  ∧ json_loads body = Some d
                  ∧ document = Some d
                  ∧ fs w' !! filename = Some body
          end
        ∧ (∀ e1 e2 e3,
             fetch_attempt_error (server n url) = Some e1 →
             fetch_attempt_error (server (n + 1) url) = Some e2 →
             fetch_attempt_error (server (n + 2) url) = Some e3 →
             r = inl e3)
  end.
Proof.
  destruct (fs w !! filename) as [text|] eqn:Hc.
  - by rewrite (run_fetch_json_cached w filename url text Hc).
  - rewrite run_fetch_json_uncached by done.
    destruct (run_fetch_json_loop w url filename)
      as (k & r & w' & -> & Hk & Hreq & Hsl & Hearlier & Hr).
    simpl. exists k. repeat (split; [done|]).
    intros e1 e2 e3 He1 He2 He3. destruct r as [e|document].
    + destruct Hr as [_ He]. congruence.
    + destruct Hr as [Hnone _].
      assert (k = 1 ∨ k = 2 ∨ k = 3)%nat as [->|[->| ->]] by lia; simpl in Hnone.
      * rewrite Nat.add_0_r in Hnone. congruence.
      * congruence.
      * congruence.
Qed.

End fetcher.

(** ** Assets *)

Section assets.
Context `{Environment}.
Local Open Scope prog_scope.
Implicit Types (w : world) (h root : string).

Lemma endswith_char_app c s x :
  x ≠ "" → Str.endswith_char c (s +:+ x) = Str.endswith_char c x.
Proof.
  intros Hx. induction s as [|a s IH]; [done|].
  rewrite Str.app_cons. cbn [Str.endswith_char]. rewrite IH.
  destruct (s +:+ x) eqn:E; [|done].
  destruct s, x; try done.
Qed.




Lemma join_step_relative path b :
  path ≠ "" → Str.endswith_char "/" path = false → Str.startswith "/" b = false →
  Path.join_step path b = path +:+ "/" +:+ b.
Proof.
  intros Hp He Hs. unfold Path.join_step. rewrite Hs, He.
  by rewrite bool_decide_false.
Qed.

Lemma app_not_nil s x : x ≠ "" → s +:+ x ≠ "".
Proof. destruct s, x; done. Qed.





End assets.

(** ** One transfer *)

Section transfer.
Context `{Environment}.
Local Open Scope prog_scope.
Implicit Types (w : world) (u path : string) (sha : option string).

Lemma run_transfer w u path sha :
  let r := server (length (requests w)) u in
  run (download_file_async_transfer (Some u) path sha) w
  = (match transfer_error path sha r with
     | Some e => inl e
     | None => inr true
     end, after_transfer u path r w).
Proof.
  unfold download_file_async_transfer, transfer_error, after_transfer,
    aiohttp_raise_for_status, mismatch_message.
  assert (Hdir : ∀ k : unit → prog bool,
    run (bind (if bool_decide (Path.dirname path = "") then Ret tt
               else act (MakeDirs (Path.dirname path))) k) w = run (k tt) w).
  { intros k. by destruct (bool_decide (Path.dirname path = "")). }
  rewrite Hdir. simpl.
  destruct (server (length (requests w)) u) as [reason|status content]; simpl; [done|].
  destruct (bool_decide (400 ≤ status)); simpl; [done|].
  destruct (truthy sha); simpl; [|done].
  rewrite lookup_insert_eq. simpl.
  by destruct (bool_decide (Some (file_digest content) ≠ sha)).
Qed.

Lemma run_transfer_no_url w path sha :
  run (download_file_async_transfer None path sha) w
  = (inl (TypeError "Constructor parameter should be str"), w).
Proof.
  unfold download_file_async_transfer.
  by destruct (bool_decide (Path.dirname path = "")).
Qed.


(** Otherwise the transfer is made. *)
Lemma run_download_pending w url path sha :
  pending w {| task_url := url; task_path := path; task_sha := sha |} →
  run (download_file_async url path sha) w
  = run (download_file_async_transfer url path sha) w.
Proof.
  intros Hp%pending_cases. simpl in Hp. unfold download_file_async. simpl.
  destruct (fs w !! path) as [c|] eqn:Hc; simpl; [|done].
  destruct Hp as [Ht Hd]. rewrite Ht. simpl. rewrite Hc. simpl.
  rewrite bool_decide_false; [done|]. intros ?. by apply Hd.
Qed.


Lemma fs_after_transfer_ok u path sha r w :
  transfer_error path sha r = None →
  ∃ content, fs (after_transfer u path r w) !! path = Some content
             ∧ (truthy sha = true → Some (file_digest content) = sha).
Proof.
  unfold transfer_error, after_transfer.
  destruct r as [reason|status content]; [done|].
  destruct (bool_decide (400 ≤ status)); [done|].
  intros Hok. exists content. simpl. rewrite lookup_insert_eq. split; [done|].
  intros Ht. rewrite Ht in Hok. simpl in Hok.
  by case_bool_decide as Hd.
Qed.

(** The second comparison, the one of the wrapper, never fails: the first
    one has already raised. *)
Lemma run_download_attempt_pending w u path sha :
  pending w {| task_url := Some u; task_path := path; task_sha := sha |} →
  let r := server (length (requests w)) u in
  run (download_attempt (Some u) path sha) w
  = (match transfer_error path sha r with
     | Some e => inl e
     | None => inr (Some true)
     end, after_transfer u path r w).
Proof.
  intros Hp r. unfold download_attempt.
  rewrite run_bind, run_download_pending, run_transfer by done. fold r.
  destruct (transfer_error path sha r) as [e|] eqn:He; [done|]. simpl.
  destruct (fs_after_transfer_ok u path sha r w He) as (content & Hc & Hd).
  destruct (truthy sha); [|done].
  simpl. rewrite Hc. simpl.
  by rewrite bool_decide_false by (intros Hne; by apply Hne, Hd).
Qed.

Lemma run_download_attempt_no_url w path sha :
  pending w {| task_url := None; task_path := path; task_sha := sha |} →
  run (download_attempt None path sha) w
  = (inl (TypeError "Constructor parameter should be str"), w).
Proof.
  intros Hp. unfold download_attempt.
  by rewrite run_bind, run_download_pending, run_transfer_no_url.
Qed.

Lemma run_download_retry_loop_S w remaining attempt url path sha retries backoff :
  run (download_retry_loop (S remaining) attempt url path sha retries backoff) w
  = match run (download_attempt url path sha) w with
    | (inr v, w1) => (inr v, w1)
    | (inl e, w1) =>
        if bool_decide (attempt + 1 < retries)
        then run (download_retry_loop remaining (attempt + 1) url path sha retries backoff)
               (set_slept (λ l, l ++ [backoff ^ (attempt + 1)]) w1)
        else (inl e, w1)
    end.
Proof.
  cbn [download_retry_loop]. rewrite run_try_catch.
  destruct (run (download_attempt url path sha) w) as [[e|v] w1]; [|done].
  by destruct (bool_decide (attempt + 1 < retries)).
Qed.

(** One attempt that writes a body with a wrong digest. *)
Lemma run_download_attempt_mismatch w u path sha status content :
  truthy sha = true →
  pending w {| task_url := Some u; task_path := path; task_sha := sha |} →
  server (length (requests w)) u = Response status content →
  status < 400 →
  Some (file_digest content) ≠ sha →
  let w' := set_fs <[path := content]> (set_requests (λ l, l ++ [u]) w) in
  run (download_attempt (Some u) path sha) w
  = (inl (ValueError (mismatch_message path sha (file_digest content))), w')
  ∧ pending w' {| task_url := Some u; task_path := path; task_sha := sha |}.
Proof.
  intros Ht Hp Hr Hs Hd w'. split.
  - rewrite run_download_attempt_pending by done. rewrite Hr.
    unfold transfer_error, after_transfer.
    rewrite (bool_decide_false (400 ≤ status)) by lia.
    by rewrite Ht, bool_decide_true.
  - right. split; [done|]. unfold digest_at, w'. simpl.
    by rewrite lookup_insert_eq.
Qed.

(** C2 (amended): a task with a digest whose three attempts each receive a
    body with a wrong digest ends with the digest-mismatch [ValueError] of
    the third attempt, after three GETs and sleeps of 2 and 4 seconds; the
    body of the third attempt is then the file at the task's path, and the
    task is still pending, so the file is not taken for valid. *)
Theorem three_mismatches_fail w u path sha s1 s2 s3 b1 b2 b3 :
  truthy sha = true →
  pending w {| task_url := Some u; task_path := path; task_sha := sha |} →
  server (length (requests w)) u = Response s1 b1 →
  server (length (requests w) + 1) u = Response s2 b2 →
  server (length (requests w) + 2) u = Response s3 b3 →
  s1 < 400 → s2 < 400 → s3 < 400 →
  Some (file_digest b1) ≠ sha → Some (file_digest b2) ≠ sha →
  Some (file_digest b3) ≠ sha →
  ∃ w',
    run (download_file_async_with_retry (Some u) path sha 3 2) w
    = (inl (ValueError (mismatch_message path sha (file_digest b3))), w')
    ∧ fs w' = <[path := b3]> (fs w)
    ∧ requests w' = requests w ++ [u; u; u]
    ∧ slept w' = slept w ++ [2; 4]
    ∧ pending w' {| task_url := Some u; task_path := path; task_sha := sha |}.
Proof.
  intros Ht Hp Hr1 Hr2 Hr3 Hs1 Hs2 Hs3 Hd1 Hd2 Hd3.
  unfold download_file_async_with_retry.
  change (Z.to_nat 3) with 3%nat.
  rewrite run_download_retry_loop_S.
  destruct (run_download_attempt_mismatch w u path sha s1 b1) as [-> Hp1]; try done.
  rewrite bool_decide_true by lia.
  set (w1 := set_slept _ _).
  rewrite run_download_retry_loop_S.
  destruct (run_download_attempt_mismatch w1 u path sha s2 b2) as [-> Hp2]; try done.
  { unfold w1. simpl. rewrite length_app. simpl. done. }
  rewrite bool_decide_true by lia.
  set (w2 := set_slept _ _).
  rewrite run_download_retry_loop_S.
  destruct (run_download_attempt_mismatch w2 u path sha s3 b3) as [-> Hp3]; try done.
  { unfold w2, w1. simpl. rewrite !length_app. simpl.
    by rewrite <- Nat.add_assoc. }
  rewrite bool_decide_false by lia.
  eexists. split; [reflexivity|]. split; [|split; [|split]]; simpl.
  - by rewrite !insert_insert_eq.
  - by rewrite <- !app_assoc.
  - by rewrite <- !app_assoc.
  - done.
Qed.

End transfer.

Example file_digest_hello : file_digest "hello" = sha1_hello.
Proof. vm_compute. reflexivity. Qed.

Lemma three_mismatches_fail_witness :
  ∃ w',
    run (H := corrupting_environment)
      (download_file_async_with_retry (Some "https://host/a.jar") "libraries/a.jar"
         (Some sha1_hello) 3 2) empty_world
    = (inl (ValueError (mismatch_message "libraries/a.jar" (Some sha1_hello)
                          (file_digest "corrupt"))), w')
    ∧ fs w' = <["libraries/a.jar" := "corrupt"]> (fs empty_world)
    ∧ requests w' = requests empty_world
                    ++ ["https://host/a.jar"; "https://host/a.jar"; "https://host/a.jar"]
    ∧ slept w' = slept empty_world ++ [2; 4]
    ∧ pending w' {| task_url := Some "https://host/a.jar"; task_path := "libraries/a.jar";
                    task_sha := Some sha1_hello |}.
Proof.
  apply (three_mismatches_fail (H := corrupting_environment) empty_world
           "https://host/a.jar" "libraries/a.jar" (Some sha1_hello)
           200 200 200 "corrupt" "corrupt" "corrupt");
    try reflexivity; try lia; try (vm_compute; congruence).
  left. reflexivity.
Defined.

(** C2 as stated fails: after three attempts that each wrote a content with
    a wrong digest, that content is still the file at the task's path. *)
Lemma corrupt_file_is_left :
  ¬ leaves_no_corrupt_file (H := corrupting_environment) empty_world
      "https://host/a.jar" "libraries/a.jar" (Some sha1_hello).
Proof.
  unfold leaves_no_corrupt_file. intros Hclaim.
  specialize (Hclaim eq_refl eq_refl).
  destruct (run (H := corrupting_environment)
              (download_file_async_with_retry (Some "https://host/a.jar")
                 "libraries/a.jar" (Some sha1_hello) 3 2) empty_world)
    as [r w'] eqn:Hrun.
  vm_compute in Hrun. injection Hrun as <- <-.
  destruct Hclaim as [_ Hfile].
  - intros i Hi. exists 200, "corrupt". split; [done|]. split; [lia|].
    vm_compute. congruence.
  - specialize (Hfile "corrupt" eq_refl). vm_compute in Hfile. congruence.
Qed.

(** ** Transfers under interference *)

Section interference.
Context `{Environment}.
Local Open Scope prog_scope.
Implicit Types (w : world) (t : task) (R : relation world).

Global Instance frame_preorder path : PreOrder (frame path).
Proof.
  split.
  - by intros w p Hp.
  - intros w1 w2 w3 H12 H23 p Hp. by rewrite H23, H12.
Qed.

Lemma holds_mono {A} R (Q Q' : exn + A → world → Prop) (p : prog A) w :
  (∀ r w', Q r w' → Q' r w') → holds R Q p w → holds R Q' p w.
Proof.
  intros HQ. revert w. induction p as [a|e|X o k IH|ready k IH]; intros w; simpl; auto.
  destruct (perform o w) as [x w']. intros [HR Hk]. split; [done|]. by apply IH.
Qed.

Lemma holds_bind {A B} R (Q : exn + B → world → Prop) (p : prog A) (f : A → prog B) w :
  holds R (λ r w', match r with
                   | inr a => holds R Q (f a) w'
                   | inl e => Q (inl e) w'
                   end) p w →
  holds R Q (bind p f) w.
Proof.
  revert w. induction p as [a|e|X o k IH|ready k IH]; intros w; simpl; auto.
  destruct (perform o w) as [x w']. intros [HR Hk]. split; [done|]. by apply IH.
Qed.

Lemma holds_try_catch {A} R (Q : exn + A → world → Prop) (p : prog A)
    (handler : exn → prog A) w :
  holds R (λ r w', match r with
                   | inr a => Q (inr a) w'
                   | inl e => holds R Q (handler e) w'
                   end) p w →
  holds R Q (try_catch p handler) w.
Proof.
  revert w. induction p as [a|e|X o k IH|ready k IH]; intros w; simpl; auto.
  destruct (perform o w) as [x w']. intros [HR Hk]. split; [done|]. by apply IH.
Qed.

(** Running to the next suspension keeps the promise. *)
Lemma holds_advance {A} R `{!PreOrder R} (Q : exn + A → world → Prop) (p : prog A) w :
  holds R Q p w →
  R w (advance p w).2 ∧ holds R Q (advance p w).1 (advance p w).2.
Proof.
  revert w. induction p as [a|e|X o k IH|ready k IH]; intros w; simpl; try done.
  destruct (perform o w) as [x w']. intros [HR Hk].
  destruct (IH x w' Hk) as [HR' Hk']. split; [by etrans|done].
Qed.

Lemma advance_not_act {A} (p : prog A) w :
  match (advance p w).1 with Act _ _ => False | _ => True end.
Proof.
  revert w. induction p as [a|e|X o k IH|ready k IH]; intros w; simpl; try done.
  destruct (perform o w) as [x w']. apply IH.
Qed.

Lemma valid_intro w t content :
  fs w !! task_path t = Some content →
  (truthy (task_sha t) = true → Some (file_digest content) = task_sha t) →
  valid w t.
Proof.
  intros Hc Hd. split; [by eexists|]. intros Ht.
  unfold digest_at. rewrite Hc. simpl. by apply Hd.
Qed.

Lemma holds_transfer url path sha w :
  holds (frame path)
    (returns_valid {| task_url := url; task_path := path; task_sha := sha |})
    (download_file_async_transfer url path sha) w.
Proof.
  unfold download_file_async_transfer. apply holds_bind.
  assert (Hrest : ∀ w0, holds (frame path)
    (returns_valid {| task_url := url; task_path := path; task_sha := sha |})
    (response ← session_get url;
     let '(status, content) := response in
     aiohttp_raise_for_status status;;
     suspend;;
     act (WriteFile path content);;
     if truthy sha then
       actual_sha ← compute_sha1 path;
       if bool_decide (Some actual_sha ≠ sha)
       then Raise (ValueError ("SHA1 mismatch for " +:+ path +:+ ": expected "
                               +:+ fmt sha +:+ ", got " +:+ actual_sha))
       else Ret true
     else Ret true) w0).
  { intros w0. destruct url as [u|]; simpl; [|by intros [? ?]].
    split; [done|]. intros w1.
    destruct (server (length (requests w0)) u) as [reason|status content]; simpl.
    { by intros [? ?]. }
    unfold aiohttp_raise_for_status.
    destruct (bool_decide (400 ≤ status)); simpl; [by intros [? ?]|].
    intros w2. split.
    { intros p Hp. simpl. by rewrite lookup_insert_ne. }
    destruct (truthy sha) eqn:Ht; simpl.
    - split; [done|]. rewrite lookup_insert_eq. simpl.
      case_bool_decide as Hd; simpl; [by intros [? ?]|].
      intros _. apply (valid_intro _ _ content); simpl.
      + by rewrite lookup_insert_eq.
      + done.
    - intros _. apply (valid_intro _ _ content); simpl.
      + by rewrite lookup_insert_eq.
      + by rewrite Ht. }
  destruct (bool_decide (Path.dirname path = "")); simpl; [apply Hrest|].
  split; [done|]. apply Hrest.
Qed.

Lemma holds_download url path sha w :
  holds (frame path)
    (returns_valid {| task_url := url; task_path := path; task_sha := sha |})
    (download_file_async url path sha) w.
Proof.
  unfold download_file_async. simpl. split; [done|].
  destruct (fs w !! path) as [c|] eqn:Hc; simpl; [|apply holds_transfer].
  destruct (truthy sha) eqn:Ht; simpl.
  - split; [done|]. rewrite Hc. simpl.
    case_bool_decide as Hd; simpl; [|apply holds_transfer].
    intros _. by apply (valid_intro _ _ c).
  - intros _. apply (valid_intro _ _ c); simpl; [done|]. by rewrite Ht.
Qed.

Lemma holds_download_attempt url path sha w :
  holds (frame path)
    (returns_valid {| task_url := url; task_path := path; task_sha := sha |})
    (download_attempt url path sha) w.
Proof.
  unfold download_attempt. apply holds_bind.
  eapply holds_mono; [|apply holds_download].
  intros [e|downloaded] w' Hv; simpl.
  { by intros [? ?]. }
  assert (Hvalid : valid w' {| task_url := url; task_path := path; task_sha := sha |})
    by (apply Hv; eauto).
  destruct downloaded; simpl; [|by intros _].
  destruct (truthy sha); simpl; [|by intros _].
  split; [done|].
  destruct (fs w' !! path); simpl; [|by intros [? ?]].
  case_bool_decide; simpl; [by intros [? ?]|by intros _].
Qed.

Lemma holds_download_retry_loop remaining attempt url path sha retries backoff w :
  Z.of_nat remaining + attempt = retries → (0 < remaining)%nat →
  holds (frame path)
    (returns_valid {| task_url := url; task_path := path; task_sha := sha |})
    (download_retry_loop remaining attempt url path sha retries backoff) w.
Proof.
  revert attempt w. induction remaining as [|remaining IH]; intros attempt w Hr Hpos;
    [lia|].
  cbn [download_retry_loop]. apply holds_try_catch.
  eapply holds_mono; [|apply holds_download_attempt].
  intros [e|v] w' Hv; simpl; [|done].
  case_bool_decide as Hlt; simpl; [|by intros [? ?]].
  split; [done|]. intros w''. apply IH; lia.
Qed.

Lemma holds_act {A X} R (Q : exn + A → world → Prop) (o : op X) (k : X → prog A) w :
  R w (perform o w).2 → holds R Q (k (perform o w).1) (perform o w).2 →
  holds R Q (Act o k) w.
Proof. simpl. by destruct (perform o w). Qed.

(** Every transfer starts parked. *)
Lemma dl_parked t : parked t (dl t).
Proof.
  destruct t as [url path sha]. unfold parked, dl. intros w.
  cbn [task_url task_path task_sha]. unfold act at 1. cbn [bind].
  apply holds_act; [done|]. cbn [perform fst snd].
  apply holds_bind, holds_try_catch, holds_bind.
  eapply holds_mono;
    [|apply (holds_download_retry_loop 3 0 url path sha 3 2); [done|lia]].
  intros [e|ok] w' Hv; simpl.
  - split; [done|]. intros [?|?]; done.
  - assert (Hvalid : valid w' {| task_url := url; task_path := path; task_sha := sha |})
      by (apply Hv; eauto).
    split; [done|]. intros _. by destruct Hvalid.
Qed.

End interference.

(** ** The event loop *)

Section engine.
Context `{Environment}.
Implicit Types (w : world) (t : task) (tasks : list task)
  (pool : list (prog outcome)).








End engine.

(** ** Resolution is stable once its index files are cached *)

Section resolution.
Context `{Environment}.
Local Open Scope prog_scope.
Implicit Types (w : world) (versions : list (manifest * string)).

Lemma holds_run {A} R `{!PreOrder R} (Q : exn + A → world → Prop) (p : prog A) w :
  holds R Q p w → R w (run p w).2 ∧ Q (run p w).1 (run p w).2.
Proof.
  revert w. induction p as [a|e|X o k IH|ready k IH]; intros w; simpl; try done.
  - destruct (perform o w) as [x w']. intros [HR Hk].
    destruct (IH x w' Hk) as [HR' Hk']. split; [by etrans|done].
  - intros Hk. apply IH, Hk.
Qed.

Lemma holds_fetch_json_attempt url filename w :
  holds (frame filename) (λ _ _, True) (fetch_json_attempt url filename) w.
Proof.
  unfold fetch_json_attempt. apply holds_bind. simpl. split; [done|].
  destruct (server (length (requests w)) url) as [reason|status body]; simpl; [done|].
  apply holds_bind. unfold requests_raise_for_status.
  destruct (bool_decide (400 ≤ status < 600)); simpl; [done|].
  apply holds_bind.
  assert (Hwrite : ∀ w0, holds (frame filename) (λ _ _, True)
            (act (WriteFile filename body);;
             document ← parse_json body; Ret (Some document)) w0).
  { intros w0. simpl. split.
    - intros p Hp. simpl. by rewrite lookup_insert_ne.
    - unfold parse_json. by destruct (json_loads body). }
  destruct (bool_decide (Path.dirname filename = "")); simpl; [apply Hwrite|].
  split; [done|]. apply Hwrite.
Qed.

Lemma holds_fetch_json_loop attempts url filename w :
  holds (frame filename) (λ _ _, True) (fetch_json_loop attempts url filename) w.
Proof.
  revert w. induction attempts as [|attempt attempts IH]; intros w; [done|].
  cbn [fetch_json_loop]. apply holds_try_catch.
  eapply holds_mono; [|apply holds_fetch_json_attempt].
  intros [e|d] w' _; [|done]. simpl.
  destruct (bool_decide (attempt < 2)); simpl; [|done].
  split; [done|]. apply IH.
Qed.

(** A call of [fetch_json] that returns leaves the files that were there
    as they were, and the document it returns is the parse of the file
    that is then in the cache. *)
Lemma run_fetch_json_returns w url filename document w' :
  run (fetch_json url filename) w = (inr document, w') →
  fs w ⊆ fs w'
  ∧ ∃ d text, document = Some d ∧ fs w' !! filename = Some text ∧ json_loads text = Some d.
Proof.
  intros Hrun. destruct (fs w !! filename) as [text|] eqn:Hc.
  - rewrite (run_fetch_json_cached w filename url text Hc) in Hrun.
    destruct (json_loads text) as [d|] eqn:Hd; [|done].
    injection Hrun as <- <-. split; [done|]. by exists d, text.
  - rewrite run_fetch_json_uncached in Hrun by done.
    destruct (holds_run (frame filename) _ _ w
                (holds_fetch_json_loop [0; 1; 2] url filename w)) as [Hfr _].
    destruct (run_fetch_json_loop w url filename)
      as (k & r & w1 & Hrun' & _ & _ & _ & _ & Hr).
    rewrite Hrun in Hrun'. injection Hrun' as <- <-. rewrite Hrun in Hfr. simpl in Hfr.
    split.
    + apply map_subseteq_spec. intros p c Hp.
      destruct (decide (p = filename)) as [->|Hne]; [congruence|].
      by rewrite Hfr.
    + destruct Hr as (_ & status & body & d & _ & Hd & -> & Hfs).
      by exists d, body.
Qed.


(** The loop over the libraries touches nothing. *)
Lemma run_for_each_library_task_step minecraft_dir libs tasks w :
  ∃ r, ∀ w', run (for_each (library_task_step minecraft_dir) tasks libs) w' = (r, w').
Proof.
  clear w. revert tasks. induction libs as [|lib libs IH]; intros tasks.
  - by exists (inr tasks).
  - cbn [for_each]. unfold library_task_step at 1.
    destruct (truthy (info_path lib)); simpl.
    + apply IH.
    + destruct (info_url lib) as [u|]; simpl; [apply IH|]. by eexists.
Qed.

Lemma index_files_single minecraft_dir version_json jar_file :
  index_files minecraft_dir [(version_json, jar_file)]
  = match assetIndex version_json with
    | Some a => [index_file minecraft_dir (index_id a)]
    | None => []
    end.
Proof. unfold index_files. simpl. by destruct (assetIndex version_json). Qed.


Lemma index_files_cons minecraft_dir version versions :
  index_files minecraft_dir (version :: versions)
  = index_files minecraft_dir [version] ++ index_files minecraft_dir versions.
Proof. unfold index_files. simpl. by destruct (assetIndex version.1). Qed.


End resolution.

(** ** Two runs in a row *)

Section idempotence.
Context `{Environment}.
Implicit Types (w : world) (t : task) (tasks : list task)
  (versions : list (manifest * string)).







End idempotence.

(** ** Duplicates *)

Section duplicates.
Context `{Environment}.
Implicit Types (w : world) (t : task).








End duplicates.

(** ** The scenarios *)

Example sha1_world_digest : file_digest "world" = sha1_world.
Proof. vm_compute. reflexivity. Qed.

(** The scenario of the specification: the artifact and [natives-linux],
    neither [natives-windows] nor [sources]. *)
Example get_libraries_linux_only :
  get_libraries [linux_only_library]
  = [ {| info_url := Some "https://host/lwjgl.jar";
         info_path := Some "org/lwjgl/lwjgl.jar"; info_sha1 := None |};
      {| info_url := Some "https://host/lwjgl-natives-linux.jar";
         info_path := Some "org/lwjgl/lwjgl-natives-linux.jar"; info_sha1 := None |} ].
Proof. vm_compute. reflexivity. Qed.

Section assets_scenario.
Local Existing Instance assets_environment.



(** In alternation, the two transfers of the one object both fetch it. *)
Example duplicates_in_flight_fetch_twice :
  requests (headless "mc" false assets_versions round_robin empty_world).2
  = [the_index_url; hello_url; hello_url].
Proof. vm_compute. reflexivity. Qed.

(** One after the other, the second finds the file in order. *)
Example duplicates_in_sequence_fetch_once :
  requests (headless "mc" false assets_versions [0; 0; 0; 1; 1; 1]%nat empty_world).2
  = [the_index_url; hello_url].
Proof. vm_compute. reflexivity. Qed.




End assets_scenario.

Section two_jars_scenario.
Local Existing Instance two_jars_environment.


End two_jars_scenario.

(** * Further properties of the code *)

(** ** parse_rules *)

Section more_rules.
Implicit Types (rules : list rule) (acc : gset string) (p : string).

Lemma parse_rules_step_version_disallow acc r :
  version_disallow r → parse_rules_step acc r = acc.
Proof.
  intros (Ha & o & Ho & Hv). unfold parse_rules_step. rewrite Ho, Ha.
  rewrite (bool_decide_true ("disallow" = "disallow")) by done.
  rewrite (bool_decide_true (is_Some _)) by done. simpl.
  set_solver.
Qed.

(** X1: a [disallow] rule with a version changes nothing where it stands
    among other rules; alone it makes the list non-empty, and the result is
    then the empty set, not the full set of the empty list. *)
Theorem parse_rules_skips_version_disallow l1 r l2 :
  version_disallow r →
  parse_rules (l1 ++ r :: l2)
  = match l1 ++ l2 with
    | [] => ∅
    | _ => parse_rules (l1 ++ l2)
    end.
Proof.
  intros Hr.
  assert (Hfold : foldl parse_rules_step ∅ (l1 ++ r :: l2)
                  = foldl parse_rules_step ∅ (l1 ++ l2)).
  { rewrite !foldl_app. cbn [foldl]. by rewrite parse_rules_step_version_disallow. }
  assert (Hne : parse_rules (l1 ++ r :: l2) = foldl parse_rules_step ∅ (l1 ++ r :: l2)).
  { unfold parse_rules. by destruct l1. }
  rewrite Hne, Hfold. by destruct (l1 ++ l2).
Qed.

Lemma elem_of_parse_rules_step p acc r :
  p ∈ parse_rules_step acc r
  ↔ if decide (applies p r) then action r = "allow" else p ∈ acc.
Proof.
  unfold parse_rules_step, applies. destruct r as [a o]; simpl.
  destruct o as [[n v]|]; simpl.
  - destruct (decide (a = "allow")) as [->|Ha].
    + rewrite bool_decide_true by done.
      rewrite (bool_decide_false ("allow" = "disallow")) by done. simpl.
      case_decide as Hp.
      * destruct Hp as [-> _]. set_solver.
      * assert (n ≠ p) by (intros ->; apply Hp; split; [done|by intros [? _]]).
        set_solver.
    + rewrite (bool_decide_false (a = "allow")) by done.
      destruct (decide (a = "disallow" ∧ is_Some v)) as [[-> Hv]|Hd].
      * rewrite !bool_decide_true by done. simpl.
        rewrite decide_False by (intros [_ Hn]; by apply Hn). set_solver.
      * assert (bool_decide (a = "disallow") && bool_decide (is_Some v) = false) as ->.
        { apply andb_false_iff.
          destruct (decide (a = "disallow")) as [->|?];
            [right|left]; apply bool_decide_eq_false; [|done].
          intros Hv. by apply Hd. }
        simpl. case_decide as Hp.
        -- destruct Hp as [-> _]. set_solver.
        -- assert (n ≠ p) by (intros ->; by apply Hp). set_solver.
  - unfold ALL_OS. case_bool_decide as Ha; case_decide as Hp; set_solver.
Qed.

Lemma elem_of_foldl_parse_rules p rules acc :
  p ∈ foldl parse_rules_step acc rules
  ↔ (∃ l1 r l2, rules = l1 ++ r :: l2 ∧ applies p r ∧ action r = "allow"
                ∧ Forall (λ r', ¬ applies p r') l2)
    ∨ (Forall (λ r', ¬ applies p r') rules ∧ p ∈ acc).
Proof.
  revert acc. induction rules as [|r rules IH]; intros acc.
  - simpl. split.
    + intros Hp. by right.
    + intros [(l1 & r & l2 & Hnil & _)|[_ Hp]]; [by destruct l1|done].
  - cbn [foldl]. rewrite IH, elem_of_parse_rules_step. split.
    + intros [(l1 & r' & l2 & -> & Hr)|[Hnone Hp]].
      * left. by exists (r :: l1), r', l2.
      * case_decide as Hap.
        -- left. exists [], r, rules. by repeat split.
        -- right. split; [by constructor|done].
    + intros [(l1 & r' & l2 & Heq & Hap & Hallow & Hnone)|[Hnone Hp]].
      * destruct l1 as [|r0 l1]; simpl in Heq; injection Heq as -> ->.
        -- right. split; [done|]. by rewrite decide_True.
        -- left. by exists l1, r', l2.
      * apply Forall_cons in Hnone as [Hr Hnone]. right. split; [done|].
        by rewrite decide_False.
Qed.

(** X2: the last rule that has a say on a platform decides: the platform is
    in the set of a non-empty rule list exactly when that rule is an
    [allow]; a platform on which no rule has a say is not in the set. *)
Theorem parse_rules_last_applicable_rule_decides p rules :
  rules ≠ [] →
  p ∈ parse_rules rules
  ↔ ∃ l1 r l2, rules = l1 ++ r :: l2 ∧ applies p r ∧ action r = "allow"
               ∧ Forall (λ r', ¬ applies p r') l2.
Proof.
  intros Hne.
  assert (parse_rules rules = foldl parse_rules_step ∅ rules) as ->
    by (by destruct rules).
  rewrite elem_of_foldl_parse_rules. split; [|by left].
  intros [?|[_ Hp]]; [done|]. set_solver.
Qed.

Lemma parse_rules_skips_version_disallow_witness :
  parse_rules
    ([ {| action := "allow"; os := None |} ]
     ++ {| action := "disallow";
           os := Some {| os_name := "osx"; os_version := Some "^10\\.5\\.\\d$" |} |}
        :: [])
  = match [ {| action := "allow"; os := None |} ] ++ [] with
    | [] => ∅
    | _ => parse_rules ([ {| action := "allow"; os := None |} ] ++ [])
    end.
Proof.
  apply (parse_rules_skips_version_disallow [ {| action := "allow"; os := None |} ]).
  split; [reflexivity|]. eexists. split; [reflexivity|]. simpl. eauto.
Defined.

Lemma parse_rules_last_applicable_rule_decides_witness :
  "osx" ∈ parse_rules allow_all_but_linux
  ↔ ∃ l1 r l2, allow_all_but_linux = l1 ++ r :: l2 ∧ applies "osx" r
               ∧ action r = "allow" ∧ Forall (λ r', ¬ applies "osx" r') l2.
Proof.
  apply (parse_rules_last_applicable_rule_decides "osx" allow_all_but_linux).
  discriminate.
Defined.

End more_rules.

(** ** get_libraries *)

Section more_libraries.
Implicit Types (libs : list library).

(** X3: the entries are resolved one by one and in order: the result for a
    list of entries followed by another is the result for the first
    followed by the result for the second. *)
Theorem get_libraries_app libs1 libs2 :
  get_libraries (libs1 ++ libs2) = get_libraries libs1 ++ get_libraries libs2.
Proof.
  unfold get_libraries. rewrite foldl_app.
  rewrite (foldl_library_step libs2 (foldl library_step [] libs1)).
  by rewrite (foldl_library_step libs2 []).
Qed.

End more_libraries.

(** ** fetch_json *)

Section more_fetcher.
Context `{Environment}.
Local Open Scope prog_scope.
Implicit Types (w : world) (url filename : string).

Lemma run_fetch_json_frame w url filename :
  frame filename w (run (fetch_json url filename) w).2.
Proof.
  destruct (fs w !! filename) as [text|] eqn:Hc.
  - rewrite (run_fetch_json_cached w filename url text Hc).
    by destruct (json_loads text).
  - rewrite run_fetch_json_uncached by done.
    apply (holds_run (frame filename) (λ _ _, True)), holds_fetch_json_loop.
Qed.

(** X4: whether it returns or raises, [fetch_json] leaves every file other
    than its cache file as it was. *)
Theorem fetch_json_touches_only_its_cache_file w url filename :
  frame filename w (run (fetch_json url filename) w).2.
Proof. apply run_fetch_json_frame. Qed.

(** X5: what [fetch_json] has returned it returns again, without a GET and
    without a sleep, for whatever url, as long as the cache file is the
    one it left. *)
Theorem fetch_json_returns_again w url filename document w' :
  run (fetch_json url filename) w = (inr document, w') →
  ∀ url' w2, fs w2 !! filename = fs w' !! filename →
             run (fetch_json url' filename) w2 = (inr document, w2).
Proof.
  intros Hrun url' w2 Hsame.
  destruct (run_fetch_json_returns _ _ _ _ _ Hrun) as (_ & d & text & -> & Hfs & Hd).
  rewrite (run_fetch_json_cached w2 filename url' text) by congruence.
  by rewrite Hd.
Qed.

Lemma run_fetch_json_attempt_decode_error w url filename w1 :
  run (fetch_json_attempt url filename) w = (inl JSONDecodeError, w1) →
  ∃ body, fs w1 !! filename = Some body ∧ json_loads body = None.
Proof.
  unfold fetch_json_attempt, requests_raise_for_status, parse_json. simpl.
  destruct (server (length (requests w)) url) as [reason|status body]; simpl; [done|].
  destruct (bool_decide (400 ≤ status < 600)); simpl; [done|].
  destruct (json_loads body) as [d|] eqn:Hd.
  - by destruct (bool_decide (Path.dirname filename = "")).
  - intros Hrun. exists body. split; [|done].
    destruct (bool_decide (Path.dirname filename = "")); simpl in Hrun;
      injection Hrun as <-; simpl; by rewrite lookup_insert_eq.
Qed.

Lemma run_fetch_json_loop_decode_error attempts w url filename w' :
  run (fetch_json_loop attempts url filename) w = (inl JSONDecodeError, w') →
  ∃ body, fs w' !! filename = Some body ∧ json_loads body = None.
Proof.
  revert w. induction attempts as [|attempt attempts IH]; intros w; [done|].
  rewrite run_fetch_json_loop_cons.
  destruct (run (fetch_json_attempt url filename) w) as [[e|d] w1] eqn:Hattempt; [|done].
  destruct (bool_decide (attempt < 2)); [apply IH|].
  intros [= -> <-]. by eapply run_fetch_json_attempt_decode_error.
Qed.

(** X6: a body that is not JSON poisons the cache: once [fetch_json] has
    ended with the parser's error, the cache file holds a text that does
    not parse, and every later call for that file ends with the same error
    without a GET, whatever the remote side would answer. *)
Theorem fetch_json_decode_error_sticks w url filename w' :
  run (fetch_json url filename) w = (inl JSONDecodeError, w') →
  (∃ text, fs w' !! filename = Some text ∧ json_loads text = None)
  ∧ ∀ url' w2, fs w2 !! filename = fs w' !! filename →
               run (fetch_json url' filename) w2 = (inl JSONDecodeError, w2).
Proof.
  intros Hrun.
  assert (Hfile : ∃ text, fs w' !! filename = Some text ∧ json_loads text = None).
  { destruct (fs w !! filename) as [text|] eqn:Hc.
    - rewrite (run_fetch_json_cached w filename url text Hc) in Hrun.
      destruct (json_loads text) eqn:Hd; [done|].
      injection Hrun as <-. by exists text.
    - rewrite run_fetch_json_uncached in Hrun by done.
      by eapply run_fetch_json_loop_decode_error. }
  split; [done|]. destruct Hfile as (text & Hfs & Hd).
  intros url' w2 Hsame.
  rewrite (run_fetch_json_cached w2 filename url' text) by congruence.
  by rewrite Hd.
Qed.

End more_fetcher.

Section poisoned_cache_scenario.
Local Existing Instance corrupting_environment.

Lemma fetch_json_decode_error_sticks_witness :
  (∃ text, fs poisoned_world !! "cache/5.json" = Some text ∧ json_loads text = None)
  ∧ ∀ url' w2, fs w2 !! "cache/5.json" = fs poisoned_world !! "cache/5.json" →
               run (fetch_json url' "cache/5.json") w2 = (inl JSONDecodeError, w2).
Proof.
  apply (fetch_json_decode_error_sticks empty_world "https://host/5.json" "cache/5.json").
  vm_compute. reflexivity.
Defined.

End poisoned_cache_scenario.

Section cached_index_scenario.
Local Existing Instance assets_environment.

Lemma fetch_json_returns_again_witness :
  run (fetch_json "https://elsewhere/5.json" "mc/assets/5.json") cached_world
  = (inr (Some the_index), cached_world).
Proof.
  apply (fetch_json_returns_again empty_world the_index_url "mc/assets/5.json"
           (Some the_index) cached_world).
  - vm_compute. reflexivity.
  - reflexivity.
Defined.

End cached_index_scenario.

(** ** get_assets *)

Section more_assets.
Context `{Environment}.
Local Open Scope prog_scope.
Implicit Types (w : world) (a : asset).



End more_assets.

Section absolute_hash_scenario.
Local Existing Instance absolute_environment.


End absolute_hash_scenario.

(** ** compute_sha1 *)

Section more_digest.
Context `{Environment}.

(** X8: [compute_sha1] leaves the world as it is; it returns the SHA-1, in
    hexadecimal, of the whole content of the file, whatever its length
    (reading it 8192 bytes at a time does not show), and raises
    [FileNotFoundError] when there is no file. *)
Theorem compute_sha1_whole_file (w : world) (file_path : string) :
  run (compute_sha1 file_path) w
  = (match fs w !! file_path with
     | Some content => inr (Sha1.hexdigest_of content)
     | None => inl (FileNotFoundError file_path)
     end, w).
Proof.
  rewrite run_compute_sha1. destruct (fs w !! file_path); [|done].
  by rewrite file_digest_sha1.
Qed.

End more_digest.

(** ** download_file_async and download_file_async_with_retry *)

Section more_transfer.
Context `{Environment}.
Local Open Scope prog_scope.
Implicit Types (w : world) (u path : string) (url sha : option string).


Lemma requests_after_transfer u path r w :
  requests (after_transfer u path r w) = requests w ++ [u].
Proof.
  unfold after_transfer. destruct r as [|status content]; [done|].
  by destruct (bool_decide (400 ≤ status)).
Qed.

Lemma slept_after_transfer u path r w :
  slept (after_transfer u path r w) = slept w.
Proof.
  unfold after_transfer. destruct r as [|status content]; [done|].
  by destruct (bool_decide (400 ≤ status)).
Qed.

Lemma pending_after_failed_transfer w u path sha r e :
  let t := {| task_url := Some u; task_path := path; task_sha := sha |} in
  pending w t → transfer_error path sha r = Some e →
  pending (after_transfer u path r w) t.
Proof.
  intros t Hp. unfold transfer_error, after_transfer.
  destruct r as [reason|status content]; [done|].
  destruct (bool_decide (400 ≤ status)); [done|].
  destruct (truthy sha) eqn:Ht; simpl; [|done].
  case_bool_decide as Hd; [|done]. intros _.
  right. split; [done|]. unfold digest_at. simpl. by rewrite lookup_insert_eq.
Qed.

Lemma valid_after_good_transfer w u path sha r :
  transfer_error path sha r = None →
  valid (after_transfer u path r w)
    {| task_url := Some u; task_path := path; task_sha := sha |}.
Proof.
  intros Hok. destruct (fs_after_transfer_ok u path sha r w Hok) as (content & Hc & Hd).
  by apply (valid_intro _ _ content).
Qed.

(** X10: started on a task that has to be transferred,
    [download_file_async_with_retry] makes attempts, one GET each, until
    the first of them whose response is accepted (a status below 400 and,
    if a digest is expected, a body with that digest), three at most; it
    sleeps 2 seconds after the first failed attempt and 4 after the
    second; when an attempt is accepted it returns [True] and the file is
    in order; when none is, it raises what the third attempt raised. *)
Theorem retry_stops_at_first_accepted_response w u path sha :
  let t := {| task_url := Some u; task_path := path; task_sha := sha |} in
  let answer i := transfer_error path sha (server (length (requests w) + i) u) in
  pending w t →
  ∃ (k : nat) res w',
    (1 ≤ k ≤ 3)%nat
    ∧ run (download_file_async_with_retry (Some u) path sha 3 2) w = (res, w')
    ∧ requests w' = requests w ++ replicate k u
    ∧ slept w' = slept w ++ take (k - 1) [2; 4]
    ∧ (∀ i, (i < k - 1)%nat → is_Some (answer i))
    ∧ match answer (k - 1)%nat with
      | None => res = inr (Some true) ∧ valid w' t
      | Some e => k = 3%nat ∧ res = inl e
      end.
Proof.
  intros t answer Hp. unfold download_file_async_with_retry.
  change (Z.to_nat 3) with 3%nat.
  rewrite run_download_retry_loop_S, run_download_attempt_pending by done.
  assert (H0 : server (length (requests w)) u = server (length (requests w) + 0) u)
    by (by rewrite Nat.add_0_r).
  rewrite H0. fold (answer 0%nat). clear H0.
  set (w1 := after_transfer u path (server (length (requests w) + 0) u) w).
  assert (Hr1 : requests w1 = requests w ++ [u]) by apply requests_after_transfer.
  assert (Hs1 : slept w1 = slept w) by apply slept_after_transfer.
  destruct (answer 0%nat) as [e1|] eqn:He1; cycle 1.
  { exists 1%nat, (inr (Some true)), w1. simpl. rewrite He1.
    split_and!; try done; try lia.
    - by rewrite Hs1, app_nil_r.
    - by apply valid_after_good_transfer. }
  rewrite bool_decide_true by lia.
  assert (Hp1 : pending w1 t) by (by eapply pending_after_failed_transfer).
  set (w1' := set_slept _ w1).
  assert (Hp1' : pending w1' t) by done.
  rewrite run_download_retry_loop_S, run_download_attempt_pending by done.
  assert (Hl1 : length (requests w1') = (length (requests w) + 1)%nat).
  { unfold w1'. simpl. rewrite Hr1, length_app. done. }
  rewrite Hl1. fold (answer 1%nat).
  set (w2 := after_transfer u path (server (length (requests w) + 1) u) w1').
  assert (Hr2 : requests w2 = requests w ++ [u; u]).
  { unfold w2. rewrite requests_after_transfer. unfold w1'. simpl.
    by rewrite Hr1, <- app_assoc. }
  assert (Hs2 : slept w2 = slept w ++ [2]).
  { unfold w2. rewrite slept_after_transfer. unfold w1'. simpl. by rewrite Hs1. }
  destruct (answer 1%nat) as [e2|] eqn:He2; cycle 1.
  { exists 2%nat, (inr (Some true)), w2. simpl. rewrite He2.
    split_and!; try done; try lia.
    - intros i Hi. assert (i = 0%nat) as -> by lia. by rewrite He1.
    - by apply valid_after_good_transfer. }
  rewrite bool_decide_true by lia.
  assert (Hp2 : pending w2 t) by (by eapply pending_after_failed_transfer).
  set (w2' := set_slept _ w2).
  assert (Hp2' : pending w2' t) by done.
  rewrite run_download_retry_loop_S, run_download_attempt_pending by done.
  assert (Hl2 : length (requests w2') = (length (requests w) + 2)%nat).
  { unfold w2'. simpl. rewrite Hr2, length_app. done. }
  rewrite Hl2. fold (answer 2%nat).
  set (w3 := after_transfer u path (server (length (requests w) + 2) u) w2').
  assert (Hr3 : requests w3 = requests w ++ [u; u; u]).
  { unfold w3. rewrite requests_after_transfer. unfold w2'. simpl.
    by rewrite Hr2, <- app_assoc. }
  assert (Hs3 : slept w3 = slept w ++ [2; 4]).
  { unfold w3. rewrite slept_after_transfer. unfold w2'. simpl.
    by rewrite Hs2, <- app_assoc. }
  destruct (answer 2%nat) as [e3|] eqn:He3.
  - rewrite bool_decide_false by lia.
    exists 3%nat, (inl e3), w3. cbn [Nat.sub]. rewrite He3.
    split_and!; try done; try lia.
    intros i Hi. assert (i = 0 ∨ i = 1)%nat as [-> | ->] by lia.
    + by rewrite He1.
    + by rewrite He2.
  - exists 3%nat, (inr (Some true)), w3. cbn [Nat.sub]. rewrite He3.
    split_and!; try done; try lia.
    + intros i Hi. assert (i = 0 ∨ i = 1)%nat as [-> | ->] by lia.
      * by rewrite He1.
      * by rewrite He2.
    + by apply valid_after_good_transfer.
Qed.

(** X11: a task without a url whose file has to be transferred costs the
    two sleeps, of 2 and of 4 seconds, and ends with the [TypeError] of the
    third attempt; no GET is sent and no file is written. *)
Theorem retry_without_url_sleeps_and_fails w path sha :
  pending w {| task_url := None; task_path := path; task_sha := sha |} →
  run (download_file_async_with_retry None path sha 3 2) w
  = (inl (TypeError "Constructor parameter should be str"),
     set_slept (λ l, l ++ [2; 4]) w).
Proof.
  intros Hp. unfold download_file_async_with_retry. change (Z.to_nat 3) with 3%nat.
  rewrite run_download_retry_loop_S, run_download_attempt_no_url by done.
  rewrite bool_decide_true by lia.
  rewrite run_download_retry_loop_S, run_download_attempt_no_url by done.
  rewrite bool_decide_true by lia.
  rewrite run_download_retry_loop_S, run_download_attempt_no_url by done.
  rewrite bool_decide_false by lia.
  f_equal. destruct w as [f r s p]. unfold set_slept. simpl.
  by rewrite <- app_assoc.
Qed.

End more_transfer.

Section more_transfer_scenario.
Local Existing Instance assets_environment.

Lemma retry_stops_at_first_accepted_response_witness :
  let t := hello_task in
  let answer i :=
    transfer_error (task_path hello_task) (Some sha1_hello)
      (server (length (requests empty_world) + i) hello_url) in
  ∃ (k : nat) res w',
    (1 ≤ k ≤ 3)%nat
    ∧ run (download_file_async_with_retry (Some hello_url) (task_path hello_task)
             (Some sha1_hello) 3 2) empty_world = (res, w')
    ∧ requests w' = requests empty_world ++ replicate k hello_url
    ∧ slept w' = slept empty_world ++ take (k - 1) [2; 4]
    ∧ (∀ i, (i < k - 1)%nat → is_Some (answer i))
    ∧ match answer (k - 1)%nat with
      | None => res = inr (Some true) ∧ valid w' t
      | Some e => k = 3%nat ∧ res = inl e
      end.
Proof.
  apply (retry_stops_at_first_accepted_response empty_world hello_url
           (task_path hello_task) (Some sha1_hello)).
  left. reflexivity.
Defined.

Lemma retry_without_url_sleeps_and_fails_witness :
  run (download_file_async_with_retry None "mc/libraries/x.jar" None 3 2) empty_world
  = (inl (TypeError "Constructor parameter should be str"),
     set_slept (λ l, l ++ [2; 4]) empty_world).
Proof.
  apply (retry_without_url_sleeps_and_fails empty_world "mc/libraries/x.jar" None).
  left. reflexivity.
Defined.

End more_transfer_scenario.

(** ** The second comparison of the digests *)

Section second_check.
Context `{Environment}.
Local Open Scope prog_scope.
Implicit Types (w : world) (path : string) (url sha : option string).

Lemma holds_and {A} (R : relation world) (Q1 Q2 : exn + A → world → Prop) (p : prog A) w :
  holds R Q1 p w → holds R Q2 p w → holds R (λ r w', Q1 r w' ∧ Q2 r w') p w.
Proof.
  revert w. induction p as [a|e|X o k IH|ready k IH]; intros w; simpl; auto.
  destruct (perform o w) as [x w']. intros [HR H1] [_ H2]. split; [done|]. by apply IH.
Qed.

Lemma string_app_inv_head (s a b : string) : s +:+ a = s +:+ b → a = b.
Proof.
  induction s as [|c s IH]; [done|]. rewrite !Str.app_cons. intros [= Hs]. by apply IH.
Qed.

Lemma messages_differ path sha actual actual' :
  mismatch_message path sha actual ≠ after_download_message path sha actual'.
Proof.
  unfold mismatch_message, after_download_message.
  intros Heq%string_app_inv_head%string_app_inv_head.
  by rewrite !Str.app_cons in Heq.
Qed.

Lemma holds_transfer_not_after_download url path sha w :
  holds (frame path) (not_after_download path sha)
    (download_file_async_transfer url path sha) w.
Proof.
  unfold download_file_async_transfer. apply holds_bind.
  assert (Hrest : ∀ w0, holds (frame path) (not_after_download path sha)
    (response ← session_get url;
     let '(status, content) := response in
     aiohttp_raise_for_status status;;
     suspend;;
     act (WriteFile path content);;
     if truthy sha then
       actual_sha ← compute_sha1 path;
       if bool_decide (Some actual_sha ≠ sha)
       then Raise (ValueError ("SHA1 mismatch for " +:+ path +:+ ": expected "
                               +:+ fmt sha +:+ ", got " +:+ actual_sha))
       else Ret true
     else Ret true) w0).
  { intros w0. destruct url as [u|]; simpl; [|by intros actual].
    split; [done|]. intros w1.
    destruct (server (length (requests w0)) u) as [reason|status content]; simpl.
    { by intros actual. }
    unfold aiohttp_raise_for_status.
    destruct (bool_decide (400 ≤ status)); simpl; [by intros actual|].
    intros w2. split.
    { intros p Hp. simpl. by rewrite lookup_insert_ne. }
    destruct (truthy sha) eqn:Ht; simpl; [|by intros actual].
    split; [done|]. rewrite lookup_insert_eq. simpl.
    case_bool_decide as Hd; simpl; [|by intros actual].
    intros actual Heq.
    apply (messages_differ path sha (file_digest content) actual).
    unfold mismatch_message. congruence. }
  destruct (bool_decide (Path.dirname path = "")); simpl; [apply Hrest|].
  split; [done|]. apply Hrest.
Qed.

Lemma holds_download_not_after_download url path sha w :
  holds (frame path) (not_after_download path sha) (download_file_async url path sha) w.
Proof.
  unfold download_file_async. simpl. split; [done|].
  destruct (fs w !! path) as [c|] eqn:Hc; simpl;
    [|apply holds_transfer_not_after_download].
  destruct (truthy sha) eqn:Ht; simpl; [|by intros actual].
  split; [done|]. rewrite Hc. simpl.
  case_bool_decide as Hd; simpl; [by intros actual|].
  apply holds_transfer_not_after_download.
Qed.

Lemma holds_download_attempt_not_after_download url path sha w :
  holds (frame path) (not_after_download path sha) (download_attempt url path sha) w.
Proof.
  unfold download_attempt. apply holds_bind.
  eapply holds_mono;
    [|apply holds_and; [apply holds_download|apply holds_download_not_after_download]].
  intros [e|downloaded] w' [Hv Hm]; simpl.
  { intros actual [= ->]. by apply (Hm actual). }
  destruct Hv as [[c Hc] Hd]; [by eexists|]. simpl in Hc, Hd.
  destruct downloaded; simpl; [|by intros actual].
  destruct (truthy sha); simpl; [|by intros actual].
  split; [done|]. rewrite Hc. simpl.
  unfold digest_at in Hd. rewrite Hc in Hd. simpl in Hd.
  rewrite bool_decide_false by (intros Hne; by apply Hne, Hd).
  by intros actual.
Qed.

Lemma holds_download_retry_loop_not_after_download
    remaining attempt url path sha retries backoff w :
  holds (frame path) (not_after_download path sha)
    (download_retry_loop remaining attempt url path sha retries backoff) w.
Proof.
  revert attempt w. induction remaining as [|remaining IH]; intros attempt w.
  { by intros actual. }
  cbn [download_retry_loop]. apply holds_try_catch.
  eapply holds_mono; [|apply holds_download_attempt_not_after_download].
  intros [e|v] w' Hm; simpl; [|by intros actual].
  case_bool_decide as Hlt; simpl.
  - split; [done|]. intros w''. apply IH.
  - intros actual [= ->]. by apply (Hm actual).
Qed.

(** X12: the comparison of the digests that [download_file_async_with_retry]
    makes itself after a download never fails: whatever the retry count and
    the backoff, and whatever the other transfers do to the world while
    this one is suspended, it writes no file but its own and never ends
    with the [ValueError] "SHA1 mismatch for ... after download"; a wrong
    digest is always reported by [download_file_async]. *)
Theorem second_digest_check_never_fails url path sha retries backoff w :
  holds (frame path) (not_after_download path sha)
    (download_file_async_with_retry url path sha retries backoff) w.
Proof. apply holds_download_retry_loop_not_after_download. Qed.

End second_check.

(** ** headless: collecting the tasks *)

Section more_resolution.
Context `{Environment}.
Local Open Scope prog_scope.
Implicit Types (w : world) (tasks : list task) (versions : list (manifest * string)).

Lemma run_for_each_app {S X} (body : S → X → prog S) (s : S) (l1 l2 : list X) w :
  run (for_each body s (l1 ++ l2)) w
  = match run (for_each body s l1) w with
    | (inr s', w') => run (for_each body s' l2) w'
    | (inl e, w') => (inl e, w')
    end.
Proof.
  revert s w. induction l1 as [|x l1 IH]; intros s w; [done|].
  cbn [app for_each]. rewrite !run_bind.
  destruct (run (body s x) w) as [[e|s'] w']; [done|]. apply IH.
Qed.

Lemma run_for_each_library_task_step_prefixed minecraft_dir libs acc tasks w :
  run (for_each (library_task_step minecraft_dir) (acc ++ tasks) libs) w
  = prefixed acc (run (for_each (library_task_step minecraft_dir) tasks libs) w).
Proof.
  revert tasks. induction libs as [|lib libs IH]; intros tasks; [done|].
  cbn [for_each]. unfold library_task_step at 1 3.
  destruct (truthy (info_path lib)); simpl.
  - rewrite <- app_assoc. apply IH.
  - destruct (info_url lib) as [u|]; simpl; [|done].
    rewrite <- app_assoc. apply IH.
Qed.

Lemma foldl_asset_task acc (assets : list asset) :
  foldl (λ tasks a, tasks ++ [asset_task a]) acc assets = acc ++ (asset_task <$> assets).
Proof.
  revert acc. induction assets as [|a assets IH]; intros acc; simpl.
  - by rewrite app_nil_r.
  - by rewrite IH, <- app_assoc.
Qed.

Lemma run_version_step_prefixed minecraft_dir acc tasks version w :
  run (version_step minecraft_dir (acc ++ tasks) version) w
  = prefixed acc (run (version_step minecraft_dir tasks version) w).
Proof.
  destruct version as [version_json jar_file]. unfold version_step.
  set (libs := get_libraries (default [] (libraries version_json))).
  assert (Hclient :
    match mbind client (manifest_downloads_of version_json) with
    | Some c => (acc ++ tasks) ++ [ {| task_url := Some (client_url c);
                                       task_path := jar_file;
                                       task_sha := client_sha1 c |} ]
    | None => acc ++ tasks
    end
    = acc ++ match mbind client (manifest_downloads_of version_json) with
             | Some c => tasks ++ [ {| task_url := Some (client_url c);
                                       task_path := jar_file;
                                       task_sha := client_sha1 c |} ]
             | None => tasks
             end).
  { destruct (mbind client (manifest_downloads_of version_json)); [|done].
    by rewrite <- app_assoc. }
  rewrite Hclient, !run_bind, run_for_each_library_task_step_prefixed.
  destruct (run (for_each (library_task_step minecraft_dir) _ libs) w)
    as [[e|tasks1] w1]; [done|]. cbn [prefixed].
  destruct (assetIndex version_json) as [asset_info|]; [|done].
  rewrite !run_bind.
  destruct (run (get_assets (index_url asset_info) (index_id asset_info) minecraft_dir) w1)
    as [[e|assets] w2]; [done|]. cbn [run prefixed].
  by rewrite !foldl_asset_task, <- app_assoc.
Qed.

Lemma run_for_each_version_step_prefixed minecraft_dir versions acc tasks w :
  run (for_each (version_step minecraft_dir) (acc ++ tasks) versions) w
  = prefixed acc (run (for_each (version_step minecraft_dir) tasks versions) w).
Proof.
  revert tasks w. induction versions as [|version versions IH]; intros tasks w; [done|].
  cbn [for_each]. rewrite !run_bind, run_version_step_prefixed.
  destruct (run (version_step minecraft_dir tasks version) w) as [[e|tasks1] w1]; [done|].
  simpl. apply IH.
Qed.

(** X13: the tasks are collected version by version: the tasks of two
    lists of versions one after the other are the tasks of the first
    followed by the tasks of the second, resolved in the world that the
    first left; an exception in the first is the end, and the second is not
    looked at. *)
Theorem headless_tasks_app minecraft_dir versions1 versions2 w :
  run (headless_tasks minecraft_dir (versions1 ++ versions2)) w
  = match run (headless_tasks minecraft_dir versions1) w with
    | (inl e, w1) => (inl e, w1)
    | (inr tasks1, w1) =>
        match run (headless_tasks minecraft_dir versions2) w1 with
        | (inl e, w2) => (inl e, w2)
        | (inr tasks2, w2) => (inr (tasks1 ++ tasks2), w2)
        end
    end.
Proof.
  unfold headless_tasks. rewrite run_for_each_app.
  destruct (run (for_each (version_step minecraft_dir) [] versions1) w)
    as [[e|tasks1] w1]; [done|].
  rewrite <- (app_nil_r tasks1) at 1.
  by rewrite run_for_each_version_step_prefixed.
Qed.

Lemma run_for_each_library_task_step_raises minecraft_dir libs lib tasks w :
  lib ∈ libs → truthy (info_path lib) = false → info_url lib = None →
  run (for_each (library_task_step minecraft_dir) tasks libs) w
  = (inl (AttributeError "'NoneType' object has no attribute 'replace'"), w).
Proof.
  intros Hin Hpath Hurl. revert tasks.
  induction libs as [|lib' libs IH]; intros tasks; [by apply elem_of_nil in Hin|].
  cbn [for_each]. unfold library_task_step at 1.
  destruct (truthy (info_path lib')) eqn:Hp'; simpl.
  - apply IH. apply elem_of_cons in Hin as [->|Hin]; [congruence|done].
  - destruct (info_url lib') as [u|] eqn:Hu'; simpl; [|done].
    apply IH. apply elem_of_cons in Hin as [->|Hin]; [congruence|done].
Qed.

(** X14: a library artifact that [get_libraries] emits with no path (or an
    empty one) and no url ends the run: once the versions before its own
    are resolved, [headless] ends with the [AttributeError] of
    [url.replace] on [None], in the world that those versions left, dry
    run or not, before any transfer. *)
Theorem headless_crashes_on_library_without_path_and_url
    minecraft_dir dry_run versions1 version_json jar_file versions2 schedule w
    tasks1 w1 lib :
  run (headless_tasks minecraft_dir versions1) w = (inr tasks1, w1) →
  lib ∈ get_libraries (default [] (libraries version_json)) →
  truthy (info_path lib) = false →
  info_url lib = None →
  headless minecraft_dir dry_run (versions1 ++ (version_json, jar_file) :: versions2)
    schedule w
  = (Crashed (AttributeError "'NoneType' object has no attribute 'replace'"), w1).
Proof.
  intros Hres Hin Hpath Hurl. unfold headless.
  replace (run (headless_tasks minecraft_dir
                  (versions1 ++ (version_json, jar_file) :: versions2)) w)
    with (@inl exn (list task)
            (AttributeError "'NoneType' object has no attribute 'replace'"), w1); [done|].
  unfold headless_tasks in *. rewrite run_for_each_app, Hres.
  cbn [for_each]. rewrite run_bind. unfold version_step. rewrite run_bind.
  by rewrite (run_for_each_library_task_step_raises _ _ lib).
Qed.

End more_resolution.

Section pathless_scenario.
Local Existing Instance corrupting_environment.

Lemma headless_crashes_on_library_without_path_and_url_witness :
  headless "mc" false ([] ++ pathless_versions) round_robin empty_world
  = (Crashed (AttributeError "'NoneType' object has no attribute 'replace'"), empty_world).
Proof.
  apply (headless_crashes_on_library_without_path_and_url "mc" false []
           {| manifest_downloads_of := None; libraries := Some [pathless_library];
              assetIndex := None |} "mc/versions/1/1.jar" [] round_robin empty_world
           [] empty_world
           {| info_url := None; info_path := None; info_sha1 := None |}).
  - reflexivity.
  - vm_compute. left.
  - reflexivity.
  - reflexivity.
Defined.

End pathless_scenario.

(** ** The local path of a library *)

Section library_path.
Context `{Environment}.
Local Open Scope prog_scope.
Implicit Types (w : world) (s cur rel : string) (sep : ascii).

Lemma contains_char_rev_app sep s1 s2 :
  contains_char sep (String.rev_app s1 s2) = contains_char sep s1 || contains_char sep s2.
Proof.
  revert s2. induction s1 as [|a s1 IH]; intros s2; [done|].
  cbn [String.rev_app]. rewrite IH. simpl.
  by destruct (bool_decide (a = sep)), (contains_char sep s1), (contains_char sep s2).
Qed.

Lemma rev_app_app s1 s2 s3 :
  String.rev_app s1 s2 +:+ s3 = String.rev_app s1 (s2 +:+ s3).
Proof. revert s2. induction s1 as [|a s1 IH]; intros s2; [done|]. apply IH. Qed.

(** No component of a split holds the separator. *)
Lemma split_go_no_sep sep cur s :
  contains_char sep cur = false →
  Forall (λ c, contains_char sep c = false) (Str.split_go sep cur s).
Proof.
  revert cur. induction s as [|a s IH]; intros cur Hcur; cbn [Str.split_go].
  - constructor; [|done]. unfold String.rev. by rewrite contains_char_rev_app, Hcur.
  - case_decide as Ha.
    + constructor; [|by apply IH].
      unfold String.rev. by rewrite contains_char_rev_app, Hcur.
    + apply IH. simpl. by rewrite bool_decide_false, Hcur.
Qed.

Lemma split_go_not_nil sep cur s : Str.split_go sep cur s ≠ [].
Proof.
  revert cur. induction s as [|a s IH]; intros cur; cbn [Str.split_go]; [done|].
  case_decide; [done|apply IH].
Qed.

Lemma join_with_cons sep c l :
  l ≠ [] → join_with sep (c :: l) = c +:+ String sep (join_with sep l).
Proof. by destruct l. Qed.

(** Joining what was split gives the string back. *)
Lemma join_with_split_go sep cur s :
  join_with sep (Str.split_go sep cur s) = String.rev cur +:+ s.
Proof.
  revert cur. induction s as [|a s IH]; intros cur; cbn [Str.split_go].
  - simpl. by rewrite StrFacts.app_nil_r.
  - case_decide as Ha.
    + rewrite join_with_cons by apply split_go_not_nil. rewrite IH. by subst a.
    + rewrite IH. unfold String.rev. cbn [String.rev_app].
      by rewrite !rev_app_app.
Qed.

Lemma no_slash_startswith c : contains_char "/" c = false → Str.startswith "/" c = false.
Proof.
  destruct c as [|a c]; [done|]. simpl. intros [Ha _]%orb_false_elim.
  destruct (decide ("/"%char = a)) as [<-|]; [|done].
  by rewrite bool_decide_true in Ha.
Qed.

Lemma no_slash_endswith c : contains_char "/" c = false → Str.endswith_char "/" c = false.
Proof.
  induction c as [|a c IH]; [done|]. simpl. intros [Ha Hc]%orb_false_elim.
  destruct c as [|b c]; [done|]. by apply IH.
Qed.

Lemma libraries_dir minecraft_dir :
  ∃ q, Path.join minecraft_dir ["libraries"] = q +:+ "libraries".
Proof.
  unfold Path.join, Path.join_step. simpl.
  destruct (bool_decide (minecraft_dir = "") || Str.endswith_char "/" minecraft_dir).
  - by exists minecraft_dir.
  - exists (minecraft_dir +:+ "/"). by rewrite StrFacts.app_assoc.
Qed.

Lemma join_cons a c cs :
  Path.join a (c :: cs) = foldl Path.join_step (Path.join a [c]) cs.
Proof. reflexivity. Qed.

Lemma foldl_join_step_components acc cs :
  acc ≠ "" → Str.endswith_char "/" acc = false → cs ≠ [] →
  Forall (λ c, c ≠ "" ∧ contains_char "/" c = false) cs →
  foldl Path.join_step acc cs = acc +:+ "/" +:+ join_with "/" cs.
Proof.
  intros Hne Hend Hcs Hall. revert acc Hne Hend.
  induction Hall as [|c cs [Hc Hslash] Hall IH]; intros acc Hne Hend; [done|].
  cbn [foldl].
  rewrite join_step_relative by (done || by apply no_slash_startswith).
  destruct cs as [|c' cs]; [done|].
  rewrite IH; [|done| |].
  - rewrite (join_with_cons "/" c (c' :: cs)) by done.
    by rewrite !StrFacts.app_assoc.
  - by apply app_not_nil, app_not_nil.
  - rewrite <- StrFacts.app_assoc, endswith_char_app by done.
    by apply no_slash_endswith.
Qed.

(** X15: for a library whose [path] has no empty component (it neither
    starts nor ends with a slash and has no two slashes in a row),
    splitting the path at the slashes and joining the parts again under
    the libraries directory gives that directory, a slash, and the path as
    it was written. *)
Theorem library_file_is_its_path_under_libraries minecraft_dir tasks lib rel w :
  info_path lib = Some rel →
  Forall (λ c, c ≠ "") (Str.split "/" rel) →
  run (library_task_step minecraft_dir tasks lib) w
  = (inr (tasks ++ [ {| task_url := info_url lib;
                        task_path := Path.join minecraft_dir ["libraries"] +:+ "/" +:+ rel;
                        task_sha := info_sha1 lib |} ]), w).
Proof.
  intros Hrel Hall. unfold library_task_step. rewrite Hrel.
  assert (Ht : truthy (Some rel) = true).
  { destruct rel; [|done]. by inversion Hall. }
  rewrite Ht. change (default "" (Some rel)) with rel. cbn [bind run].
  rewrite join_cons.
  destruct (libraries_dir minecraft_dir) as [q ->].
  rewrite foldl_join_step_components.
  - unfold Str.split. by rewrite join_with_split_go.
  - by apply app_not_nil.
  - by rewrite endswith_char_app.
  - apply split_go_not_nil.
  - unfold Str.split in *. pose proof (split_go_no_sep "/" "" rel eq_refl) as Hno.
    rewrite Forall_forall in Hall, Hno. apply Forall_forall. intros c Hc.
    split; [by apply Hall|by apply Hno].
Qed.

Lemma foldl_join_step_prefix acc cs :
  Forall (λ c, contains_char "/" c = false) cs →
  ∃ rest, foldl Path.join_step acc cs = acc +:+ rest.
Proof.
  intros Hall. revert acc. induction Hall as [|c cs Hc Hall IH]; intros acc.
  - exists "". by rewrite StrFacts.app_nil_r.
  - cbn [foldl]. destruct (IH (Path.join_step acc c)) as [rest ->].
    unfold Path.join_step. rewrite no_slash_startswith by done.
    destruct (bool_decide (acc = "") || Str.endswith_char "/" acc).
    + exists (c +:+ rest). by rewrite StrFacts.app_assoc.
    + exists ("/" +:+ c +:+ rest). by rewrite !StrFacts.app_assoc.
Qed.

(** X16: whatever the [path] of a library is, as long as it is not empty,
    the file of its task starts with the libraries directory followed by a
    slash: a path that starts with a slash does not replace the directory,
    as the [hash] of an asset does. *)
Theorem library_file_starts_with_libraries minecraft_dir tasks lib w :
  truthy (info_path lib) = true →
  ∃ rest,
    run (library_task_step minecraft_dir tasks lib) w
    = (inr (tasks ++ [ {| task_url := info_url lib;
                          task_path := Path.join minecraft_dir ["libraries"] +:+ "/" +:+ rest;
                          task_sha := info_sha1 lib |} ]), w).
Proof.
  intros Ht. unfold library_task_step. rewrite Ht. cbn [bind run].
  rewrite join_cons.
  set (rel := default "" (info_path lib)).
  pose proof (split_go_no_sep "/" "" rel eq_refl) as Hno.
  pose proof (split_go_not_nil "/" "" rel) as Hnil.
  fold (Str.split "/" rel) in Hno, Hnil.
  destruct (Str.split "/" rel) as [|c cs]; [done|].
  apply Forall_cons in Hno as [Hc Hcs]. cbn [foldl].
  destruct (foldl_join_step_prefix
              (Path.join_step (Path.join minecraft_dir ["libraries"]) c) cs Hcs)
    as [rest ->].
  destruct (libraries_dir minecraft_dir) as [q ->].
  exists (c +:+ rest). do 4 f_equal.
  unfold Path.join_step. rewrite no_slash_startswith by done.
  rewrite endswith_char_app by done. cbn [Str.endswith_char].
  rewrite bool_decide_false by (by apply app_not_nil). simpl.
  by rewrite !StrFacts.app_assoc.
Qed.

End library_path.

Lemma library_file_is_its_path_under_libraries_witness :
  run (H := corrupting_environment)
    (library_task_step "mc" []
       {| info_url := Some "https://host/lwjgl.jar";
          info_path := Some "org/lwjgl/lwjgl.jar"; info_sha1 := None |}) empty_world
  = (inr ([] ++ [ {| task_url := Some "https://host/lwjgl.jar";
                     task_path := Path.join "mc" ["libraries"] +:+ "/" +:+ "org/lwjgl/lwjgl.jar";
                     task_sha := None |} ]), empty_world).
Proof.
  apply (library_file_is_its_path_under_libraries (H := corrupting_environment) "mc" []
           {| info_url := Some "https://host/lwjgl.jar";
              info_path := Some "org/lwjgl/lwjgl.jar"; info_sha1 := None |}
           "org/lwjgl/lwjgl.jar" empty_world).
  - reflexivity.
  - vm_compute. repeat constructor; discriminate.
Defined.

Lemma library_file_starts_with_libraries_witness :
  ∃ rest,
    run (H := corrupting_environment)
      (library_task_step "mc" []
         {| info_url := None; info_path := Some "/etc/passwd"; info_sha1 := None |})
      empty_world
    = (inr ([] ++ [ {| task_url := None;
                       task_path := Path.join "mc" ["libraries"] +:+ "/" +:+ rest;
                       task_sha := None |} ]), empty_world).
Proof.
  apply (library_file_starts_with_libraries (H := corrupting_environment) "mc" []
           {| info_url := None; info_path := Some "/etc/passwd"; info_sha1 := None |}
           empty_world).
  reflexivity.
Defined.

(** ** headless: what a run touches *)

Section pool_invariant.
Context `{Environment}.
Variables (R : task → relation world) (Q : task → exn + outcome → world → Prop).
Variable Rall : relation world.
Context `{!∀ t, PreOrder (R t)} `{!PreOrder Rall}.
Implicit Types (w : world) (tasks : list task) (pool : list (prog outcome)).

Lemma kept_resume tasks pool w i :
  (∀ t w w', t ∈ tasks → R t w w' → Rall w w') →
  Forall2 (λ t p, kept (R t) (Q t) p) tasks pool →
  Forall2 (λ t p, kept (R t) (Q t) p) tasks (resume i (pool, w)).1
  ∧ Rall w (resume i (pool, w)).2.
Proof.
  intros Hall Hkept. unfold resume.
  destruct (pool !! i) as [p|] eqn:Hp; [|done].
  destruct p as [a|e|X o k|ready k]; try done.
  destruct (ready w); [|done].
  destruct (advance k w) as [p' w'] eqn:Hadv.
  destruct (Forall2_lookup_r _ _ _ _ _ Hkept Hp) as (ti & Hti & Hk). simpl in Hk.
  destruct (holds_advance (R ti) (Q ti) k w (Hk w)) as [Hfr Hp'].
  rewrite Hadv in Hfr, Hp'. simpl in Hfr, Hp'. simpl. split.
  - rewrite <- (list_insert_id tasks i ti) by done.
    apply Forall2_insert; [done|].
    pose proof (advance_not_act k w) as Hna. rewrite Hadv in Hna. simpl in Hna.
    destruct p' as [a|e|X o k'|ready' k']; simpl in *; try done; by eexists.
  - apply (Hall ti); [|done]. by eapply list_elem_of_lookup_2.
Qed.

Lemma kept_gather tasks schedule pool w :
  (∀ t w w', t ∈ tasks → R t w w' → Rall w w') →
  Forall2 (λ t p, kept (R t) (Q t) p) tasks pool →
  Forall2 (λ t p, kept (R t) (Q t) p) tasks (gather schedule (pool, w)).1
  ∧ Rall w (gather schedule (pool, w)).2.
Proof.
  intros Hall. unfold gather. revert pool w.
  induction schedule as [|i schedule IH]; intros pool w Hkept; [done|].
  cbn [foldl]. destruct (kept_resume tasks pool w i Hall Hkept) as [Hkept' Hstep].
  destruct (resume i (pool, w)) as [pool' w']. simpl in *.
  destruct (IH pool' w' Hkept') as [Hk Hr]. split; [done|]. by etrans.
Qed.

End pool_invariant.

Section more_headless.
Context `{Environment}.
Local Open Scope prog_scope.
Implicit Types (w : world) (t : task) (tasks : list task)
  (versions : list (manifest * string)) (pool : list (prog outcome)).

Global Instance frame_of_preorder paths : PreOrder (frame_of paths).
Proof.
  split.
  - by intros w p Hp.
  - intros w1 w2 w3 H12 H23 p Hp. by rewrite H23, H12.
Qed.

Lemma fst_reason w tasks : ((λ t, (t, reason w t)) <$> tasks).*1 = tasks.
Proof. rewrite <- list_fmap_compose. by rewrite list_fmap_id. Qed.

(** [headless], with its filter replaced by what the filter computes. *)
Lemma headless_unfold minecraft_dir dry_run versions schedule w :
  headless minecraft_dir dry_run versions schedule w
  = match run (headless_tasks minecraft_dir versions) w with
    | (inl e, w1) => (Crashed e, w1)
    | (inr tasks, w1) =>
        match filter (pending w1) tasks with
        | [] => (UpToDate, w1)
        | t :: ts =>
            let to_download := (λ t, (t, reason w1 t)) <$> t :: ts in
            if dry_run then (DryRun to_download, w1)
            else
              let '(pool, w2) :=
                gather schedule (dl <$> t :: ts, set_permits (λ _, 8%nat) w1) in
              (Transferred to_download pool, w2)
        end
    end.
Proof.
  unfold headless.
  destruct (run (headless_tasks minecraft_dir versions) w) as [[e|tasks] w1]; [done|].
  rewrite run_headless_to_download.
  destruct (filter (pending w1) tasks) as [|t ts]; [done|].
  cbn [fmap list_fmap]. destruct dry_run; [done|].
  cbn [fst]. by rewrite fst_reason.
Qed.

(** The resolution of the tasks writes the index files only. *)
Lemma run_version_step_frame minecraft_dir tasks version w :
  frame_of (index_files minecraft_dir [version]) w
    (run (version_step minecraft_dir tasks version) w).2.
Proof.
  destruct version as [version_json jar_file]. rewrite index_files_single.
  unfold version_step.
  set (tasks0 := match mbind client (manifest_downloads_of version_json) with
                 | Some c => _ | None => tasks end).
  rewrite run_bind.
  destruct (run_for_each_library_task_step minecraft_dir
              (get_libraries (default [] (libraries version_json))) tasks0 w)
    as [r Hr].
  rewrite Hr. destruct r as [e|tasks1]; [done|].
  destruct (assetIndex version_json) as [asset_info|]; [|done].
  rewrite run_bind. unfold get_assets. rewrite run_bind.
  pose proof (run_fetch_json_frame w (index_url asset_info)
                (index_file minecraft_dir (index_id asset_info))) as Hframe.
  destruct (run (fetch_json (index_url asset_info)
                   (index_file minecraft_dir (index_id asset_info))) w)
    as [[e|index] w1]; simpl in Hframe.
  - intros p Hp. apply Hframe. intros ->. apply Hp. by left.
  - destruct index as [index|]; cbn [run snd];
      intros p Hp; apply Hframe; intros ->; apply Hp; by left.
Qed.

Lemma run_for_each_version_step_frame minecraft_dir versions tasks w :
  frame_of (index_files minecraft_dir versions) w
    (run (for_each (version_step minecraft_dir) tasks versions) w).2.
Proof.
  revert tasks w. induction versions as [|version versions IH]; intros tasks w; [done|].
  cbn [for_each]. rewrite run_bind.
  pose proof (run_version_step_frame minecraft_dir tasks version w) as Hstep.
  destruct (run (version_step minecraft_dir tasks version) w) as [[e|tasks1] w1];
    simpl in Hstep.
  - intros p Hp. apply Hstep. rewrite index_files_cons in Hp.
    intros Hin. apply Hp, elem_of_app. by left.
  - intros p Hp. rewrite index_files_cons in Hp. rewrite (IH tasks1 w1).
    + apply Hstep. intros Hin. apply Hp, elem_of_app. by left.
    + intros Hin. apply Hp, elem_of_app. by right.
Qed.

(** The transfers write the files of their tasks only. *)
Lemma gather_frame tasks schedule w :
  frame_of (task_path <$> tasks) w (gather schedule (dl <$> tasks, w)).2.
Proof.
  apply (kept_gather (λ t, frame (task_path t)) (λ _ _ _, True)
           (frame_of (task_path <$> tasks)) tasks schedule (dl <$> tasks) w).
  - intros t w1 w2 Ht Hfr p Hp. apply Hfr. intros ->. apply Hp.
    apply list_elem_of_fmap. by exists t.
  - apply Forall2_fmap_r, Forall_Forall2_diag, Forall_forall. intros t _.
    pose proof (dl_parked t) as Hparked. unfold parked, dl in Hparked.
    unfold kept, dl. intros w'. eapply holds_mono; [|apply Hparked]. done.
Qed.

(** X17: a run of [headless], dry or not, whatever the order in which the
    event loop resumes the transfers and however each of them ends, writes
    no file but the index files that the resolution caches and the files of
    the tasks it found to transfer. *)
Theorem headless_writes_only_planned_files minecraft_dir dry_run versions schedule w p :
  p ∉ index_files minecraft_dir versions →
  p ∉ task_path <$> planned minecraft_dir versions w →
  fs (headless minecraft_dir dry_run versions schedule w).2 !! p = fs w !! p.
Proof.
  intros Hindex Hplanned. rewrite headless_unfold. unfold planned in Hplanned.
  pose proof (run_for_each_version_step_frame minecraft_dir versions [] w p Hindex)
    as Hres.
  fold (headless_tasks minecraft_dir versions) in Hres.
  destruct (run (headless_tasks minecraft_dir versions) w) as [[e|tasks] w1];
    simpl in Hres; [done|].
  destruct (filter (pending w1) tasks) as [|t ts]; [done|].
  cbn zeta. destruct dry_run; [done|].
  pose proof (gather_frame (t :: ts) schedule (set_permits (λ _, 8%nat) w1) p Hplanned)
    as Hgather.
  destruct (gather schedule (dl <$> t :: ts, set_permits (λ _, 8%nat) w1))
    as [pool w2]. simpl in *. by rewrite Hgather.
Qed.

(** X18: a dry run transfers nothing: it leaves the world as the
    resolution of the tasks left it (the asset indexes that were not cached
    are fetched and written all the same), and it never reports
    transfers. *)
Theorem dry_run_only_resolves minecraft_dir versions schedule w :
  (headless minecraft_dir true versions schedule w).2
  = (run (headless_tasks minecraft_dir versions) w).2
  ∧ ∀ to_download pool,
      (headless minecraft_dir true versions schedule w).1 ≠ Transferred to_download pool.
Proof.
  rewrite headless_unfold.
  destruct (run (headless_tasks minecraft_dir versions) w) as [[e|tasks] w1]; [done|].
  by destruct (filter (pending w1) tasks).
Qed.

Lemma holds_any {A} (p : prog A) w : holds (λ _ _, True) (λ _ _, True) p w.
Proof.
  revert w. induction p as [a|e|X o k IH|ready k IH]; intros w; simpl; try done.
  destruct (perform o w) as [x w']. split; [done|]. apply IH.
Qed.

(** X19: no exception leaves a transfer: whatever the tasks, the schedule
    and the answers of the remote side, every transfer of the pool that
    [asyncio.gather] runs is suspended or has ended with its line
    ("Downloaded", "OK" or "Error downloading"); a transfer that fails does
    not end the others. *)
Theorem gather_contains_every_exception tasks schedule w :
  Forall contained (gather schedule (dl <$> tasks, w)).1
  ∧ length (gather schedule (dl <$> tasks, w)).1 = length tasks.
Proof.
  assert (Hpre : PreOrder (λ _ _ : world, True)) by (by split).
  destruct (kept_gather (λ _ _ _, True) (λ _ r _, ∃ o, r = inr o) (λ _ _, True)
              tasks schedule (dl <$> tasks) w) as [Hkept _]; [done| |].
  - apply Forall2_fmap_r, Forall_Forall2_diag, Forall_forall. intros t _.
    unfold kept, dl. intros w'. unfold act at 1. cbn [bind].
    apply holds_act; [done|]. cbn [perform fst snd].
    apply holds_bind, holds_try_catch.
    eapply holds_mono; [|apply holds_any].
    intros [e|ok] w1 _; simpl; split; try done; by eexists.
  - split.
    + apply Forall_forall. intros p [i Hi]%list_elem_of_lookup.
      destruct (Forall2_lookup_r _ _ _ _ _ Hkept Hi) as (t & _ & Hk).
      destruct p as [o|e|X o k|ready k]; simpl in *; try done.
      by destruct Hk as (_ & o & ?).
    + symmetry. by eapply Forall2_length.
Qed.

End more_headless.

Section more_headless_scenario.
Local Existing Instance assets_environment.

(** A dry run on an empty store fetches the asset index and caches it. *)
Example dry_run_caches_the_index :
  headless "mc" true assets_versions [] empty_world
  = (DryRun [(hello_task, "missing"); (hello_task, "missing")], cached_world).
Proof. vm_compute. reflexivity. Qed.

Lemma headless_writes_only_planned_files_witness :
  fs (headless "mc" false assets_versions round_robin empty_world).2 !! "mc/options.txt"
  = fs empty_world !! "mc/options.txt".
Proof.
  apply (headless_writes_only_planned_files "mc" false assets_versions round_robin
           empty_world "mc/options.txt").
  - apply (bool_decide_unpack _). vm_compute. reflexivity.
  - apply (bool_decide_unpack _). vm_compute. reflexivity.
Defined.

End more_headless_scenario.

(** ** headless: what a run that succeeded has done *)

Section success.
Context `{Environment}.
Implicit Types (w : world) (t : task) (tasks : list task)
  (versions : list (manifest * string)).



End success.

Section success_scenario.
Local Existing Instance assets_environment.


End success_scenario.

(** ** The number of GETs *)

Section gets.
Context `{Environment}.
Local Open Scope prog_scope.
Local Open Scope nat_scope.
Implicit Types (w : world) (n m : nat) (t : task) (tasks : list task)
  (versions : list (manifest * string)) (pool : list (prog outcome)).







Lemma at_most_gets_compute_sha1 path : at_most_gets 0 (compute_sha1 path).
Proof. unfold compute_sha1. simpl. by intros [c|]. Qed.













Lemma sum_list_insert (l : list nat) i x y :
  l !! i = Some x → sum_list (<[i := y]> l) + x = sum_list l + y.
Proof.
  revert i. induction l as [|z l IH]; intros [|i] Hi; simpl in *; try done.
  - injection Hi as ->. lia.
  - specialize (IH i Hi). lia.
Qed.



End gets.

(** ** The semaphore *)

Section semaphore.
Context `{Environment}.
Local Open Scope prog_scope.
Local Open Scope nat_scope.
Implicit Types (w : world) (t : task) (tasks : list task) (pool : list (prog outcome))
  (running : list bool).

Lemma quiet_bind {A B} (p : prog A) (f : A → prog B) :
  quiet p → (∀ a, quiet (f a)) → quiet (bind p f).
Proof.
  induction p as [a|e|X o k IH|ready k IH]; simpl; auto.
  intros [Ho Hk] Hf. split; [done|]. intros x. by apply IH.
Qed.

Lemma quiet_try_catch {A} (p : prog A) (handler : exn → prog A) :
  quiet p → (∀ e, quiet (handler e)) → quiet (try_catch p handler).
Proof.
  induction p as [a|e|X o k IH|ready k IH]; simpl; auto.
  intros [Ho Hk] Hf. split; [done|]. intros x. by apply IH.
Qed.

Lemma quiet_compute_sha1 path : quiet (compute_sha1 path).
Proof. unfold compute_sha1. simpl. split; [done|]. by intros [c|]. Qed.

Lemma quiet_transfer url path sha : quiet (download_file_async_transfer url path sha).
Proof.
  unfold download_file_async_transfer.
  apply quiet_bind; [by destruct (bool_decide _)|]. intros _.
  apply quiet_bind.
  { destruct url as [u|]; [|done]. simpl. split; [done|]. by intros [reason|status body]. }
  intros [status content]. apply quiet_bind.
  { unfold aiohttp_raise_for_status. by destruct (bool_decide _). }
  intros _. simpl. split; [done|]. intros _.
  destruct (truthy sha); [|done]. simpl. split; [done|]. intros [c|]; [|done]. simpl.
  by destruct (bool_decide _).
Qed.

Lemma quiet_download url path sha : quiet (download_file_async url path sha).
Proof.
  unfold download_file_async. simpl. split; [done|].
  intros [|]; [|apply quiet_transfer].
  destruct (truthy sha); [|done]. simpl. split; [done|]. intros [c|]; [|done]. simpl.
  destruct (bool_decide _); [done|apply quiet_transfer].
Qed.

Lemma quiet_download_attempt url path sha : quiet (download_attempt url path sha).
Proof.
  unfold download_attempt. apply quiet_bind; [apply quiet_download|].
  intros [|]; simpl; [|done].
  destruct (truthy sha); [|done]. simpl. split; [done|]. intros [c|]; [|done]. simpl.
  by destruct (bool_decide _).
Qed.

Lemma quiet_download_retry_loop remaining attempt url path sha retries backoff :
  quiet (download_retry_loop remaining attempt url path sha retries backoff).
Proof.
  revert attempt. induction remaining as [|remaining IH]; intros attempt; [done|].
  cbn [download_retry_loop].
  apply quiet_try_catch; [apply quiet_download_attempt|].
  intros e. destruct (bool_decide _); [|done]. simpl. split; [done|]. intros _. apply IH.
Qed.

(** Under [async with semaphore], the [try] of [dl] gives the permit back
    on every path. *)
Lemma holds_permit_body (q : prog outcome) :
  quiet q →
  holds_permit (r ← try_catch q (λ e, Ret (Failed e)); act Release;; Ret r).
Proof.
  induction q as [a|e|X o k IH|ready k IH]; simpl.
  - intros _ _. by eexists.
  - intros _ _. by eexists.
  - intros [-> Hk] x. by apply IH.
  - apply IH.
Qed.

Lemma holds_permit_dl_body t :
  holds_permit
    (r ← try_catch
           (ok ← download_file_async_with_retry (task_url t) (task_path t) (task_sha t) 3 2;
            Ret (if ok is Some true then Downloaded else Ok))
           (λ e, Ret (Failed e));
     act Release;;
     Ret r).
Proof.
  apply holds_permit_body, quiet_bind; [|done].
  apply quiet_download_retry_loop.
Qed.

Lemma perform_permits {X} (o : op X) w :
  permit_change o = None → permits (perform o w).2 = permits w.
Proof. by destruct o. Qed.

(** Resumed, a transfer that holds a permit still holds it at its next
    suspension, or has given it back and returned. *)
Lemma holds_permit_advance (p : prog outcome) w :
  holds_permit p →
  (holds_permit (advance p w).1 ∧ permits (advance p w).2 = permits w)
  ∨ (is_Some (finished (advance p w).1) ∧ permits (advance p w).2 = S (permits w)).
Proof.
  revert w. induction p as [a|e|X o k IH|ready k IH]; intros w; simpl; try done.
  - destruct (permit_change o) as [[|]|] eqn:Ho; [done| |].
    + intros Hk. destruct o; try done. simpl.
      destruct (Hk tt) as [o' ->]. simpl. right. split; [by eexists|done].
    + intros Hk. pose proof (perform_permits o w Ho) as Hperm.
      destruct (perform o w) as [x w']. simpl in Hperm.
      destruct (IH x w' (Hk x)) as [[Hp Hw]|[Hp Hw]]; [left|right];
        (split; [done|congruence]).
  - intros Hk. by left.
Qed.

Lemma sum_list_b2n_insert running i b b' :
  running !! i = Some b →
  sum_list (Nat.b2n <$> <[i := b']> running) + Nat.b2n b
  = sum_list (Nat.b2n <$> running) + Nat.b2n b'.
Proof.
  intros Hi. rewrite list_fmap_insert. apply sum_list_insert.
  by rewrite list_lookup_fmap, Hi.
Qed.

Lemma resume_dl pool w i t :
  pool !! i = Some (dl t) →
  resume i (pool, w)
  = if bool_decide (0 < permits w)
    then let '(p, w') :=
           advance
             (r ← try_catch
                    (ok ← download_file_async_with_retry
                            (task_url t) (task_path t) (task_sha t) 3 2;
                     Ret (if ok is Some true then Downloaded else Ok))
                    (λ e, Ret (Failed e));
              act Release;;
              Ret r)
             (set_permits Nat.pred w) in
         (<[i := p]> pool, w')
    else (pool, w).
Proof. intros Hp. unfold resume. rewrite Hp. reflexivity. Qed.

Lemma accounted_resume running pool w i :
  Forall2 accounted running pool →
  ∃ running',
    Forall2 accounted running' (resume i (pool, w)).1
    ∧ sum_list (Nat.b2n <$> running') + permits (resume i (pool, w)).2
      = sum_list (Nat.b2n <$> running) + permits w.
Proof.
  intros Hall.
  destruct (pool !! i) as [p|] eqn:Hp; [|unfold resume; rewrite Hp; by exists running].
  destruct (Forall2_lookup_r _ _ _ _ _ Hall Hp) as (b & Hb & Hk).
  pose proof (sum_list_b2n_insert running i b) as Hsum.
  destruct b; simpl in Hk.
  - unfold resume. rewrite Hp.
    destruct p as [a|e|X o k|ready k]; try by exists running.
    destruct (ready w); [|by exists running].
    simpl in Hk.
    destruct (holds_permit_advance k w Hk) as [[Hp' Hw]|[Hp' Hw]];
      destruct (advance k w) as [p' w']; simpl in *.
    + exists running. split; [|lia].
      rewrite <- (list_insert_id running i true) by done. by apply Forall2_insert.
    + exists (<[i := false]> running). split; [apply Forall2_insert; [done|by right]|].
      specialize (Hsum false Hb). simpl in Hsum. lia.
  - destruct Hk as [[t ->]|Hfin].
    + rewrite (resume_dl pool w i t Hp). case_bool_decide as Hready; [|by exists running].
      destruct (holds_permit_advance _ (set_permits Nat.pred w) (holds_permit_dl_body t))
        as [[Hp' Hw]|[Hp' Hw]];
        destruct (advance _ (set_permits Nat.pred w)) as [p' w']; simpl in *.
      * exists (<[i := true]> running). split; [by apply Forall2_insert|].
        specialize (Hsum true Hb). simpl in Hsum. lia.
      * exists running. split; [|lia].
        rewrite <- (list_insert_id running i false) by done.
        apply Forall2_insert; [done|by right].
    + unfold resume. rewrite Hp. destruct p; try by exists running.
      by destruct Hfin.
Qed.

Lemma accounted_gather schedule running pool w :
  Forall2 accounted running pool →
  ∃ running',
    Forall2 accounted running' (gather schedule (pool, w)).1
    ∧ sum_list (Nat.b2n <$> running') + permits (gather schedule (pool, w)).2
      = sum_list (Nat.b2n <$> running) + permits w.
Proof.
  unfold gather. revert running pool w.
  induction schedule as [|i schedule IH]; intros running pool w Hall; cbn [foldl].
  { by exists running. }
  destruct (accounted_resume running pool w i Hall) as (running1 & Hall1 & Hsum1).
  destruct (resume i (pool, w)) as [pool1 w1]. simpl in *.
  destruct (IH running1 pool1 w1 Hall1) as (running2 & Hall2 & Hsum2).
  exists running2. split; [done|lia].
Qed.

(** X23: the semaphore accounts for every transfer: at any point of
    [asyncio.gather], whatever the schedule, the transfers can be marked
    so that each marked one is inside [async with semaphore] (it holds a
    permit and gives it back once, on every path, also when it fails),
    each other one has not been resumed yet or has ended, and the marked
    ones and the free permits add up to 8.  So at most 8 transfers are
    under way at a time, and when all have ended all 8 permits are free. *)
Theorem semaphore_accounts_for_every_transfer tasks schedule w :
  let st := gather schedule (dl <$> tasks, set_permits (λ _, 8) w) in
  (∃ running,
     Forall2 accounted running st.1
     ∧ sum_list (Nat.b2n <$> running) + permits st.2 = 8)
  ∧ (Forall (λ p, is_Some (finished p)) st.1 → permits st.2 = 8).
Proof.
  intros st.
  destruct (accounted_gather schedule (replicate (length tasks) false) (dl <$> tasks)
              (set_permits (λ _, 8) w)) as (running & Hall & Hsum).
  { clear. induction tasks as [|t tasks IH]; simpl; constructor; [|done].
    left. by exists t. }
  fold st in Hall, Hsum.
  assert (Hzero : ∀ n, sum_list (Nat.b2n <$> replicate n false) = 0).
  { induction n as [|n IH]; [done|]. simpl. exact IH. }
  rewrite Hzero in Hsum. simpl in Hsum. split; [by exists running|].
  intros Hfin. rewrite <- Hsum.
  assert (Hnone : sum_list (Nat.b2n <$> running) = 0); [|lia].
  clear Hsum. induction Hall as [|b p running pool Hb Hall IH]; [done|].
  apply Forall_cons in Hfin as [[o Ho] Hfin].
  destruct b; simpl in *.
  - by destruct p.
  - by apply IH.
Qed.

End semaphore.
